(** * The order manager of cpapi-app

    A shallow embedding of [src/app/manager.py] (class [OrderManager]) and
    the properties of its order-resolution cycle: quote refresh, market and
    limit fills, netting of a fill into a portfolio, retirement of the order.

    Conventions of the embedding.
    - Python numbers (order quantities, prices, position values) are exact
      rationals ([Qc], rationals in lowest terms, so that equal numbers are
      equal terms); rounding of binary floating point is not modelled.
    - The manager's private fields and the three Firestore collections it
      reaches into form one [State]; every method is a state transformer
      that either returns or raises, and a raise keeps the state reached so
      far (Python does not roll anything back).
    - What the outside world decides (the answer of the quote source,
      whether a portfolio write is accepted, an interrupt during the sleep)
      is an [External] record given to the cycle.
    - [logging.basicConfig(level=logging.INFO)] in [src/main.py] discards
      the [logging.debug] calls, so only [info] and [error] records are
      kept in the log. *)

From Stdlib Require Import QArith Qcanon.
From stdpp Require Import gmap strings list fin_maps numbers.

(** ** Data model *)

Module models.

(** Modelled from the spec: [app/models.py] (the pydantic classes [Order],
    [Position] and [Portfolio] that [manager.py] imports) is not among the
    sources. The fields are the attributes [manager.py] reads and writes;
    their types follow section 3 of the specification: an order side is BUY
    or SELL, a position side is BUY, SELL or none, a limit price may be
    absent. The order type stays a string, as [manager.py] matches it
    against the literals "MKT" and "LMT" and has a default case. *)
Inductive Side := BUY | SELL.

#[global] Instance Side_eq_dec : EqDecision Side.
Proof. solve_decision. Defined.

Module Order.
Record t := mk {
  id : string;
  portfolio_id : string;
  symbol : string;
  order_type : string;
  side : Side;
  quantity : Qc;
  limit_price : option Qc
}.
End Order.

Module Position.
Record t := mk {
  symbol : string;
  quantity : Qc;
  side : option Side;
  conid : Z;
  value : Qc
}.
End Position.

Module Portfolio.
Record t := mk {
  id : string;
  orders : list Order.t;
  positions : list Position.t
}.
End Portfolio.

End models.
Import models.

(** A document of the contracts collection: [contract_data.get("symbol")]
    and [contract_data.get("con_id")]. *)
Module Contract.
Record t := mk { symbol : string; con_id : Z }.
End Contract.

(** One element of the quote source's answer: the instrument identifier
    ([int(snapshot["conidEx"])]) and the price fields present in it, keyed
    by field code ("84" is the bid, "86" the ask). *)
Record Snapshot := {
  conidEx : Z;
  fields : gmap string Qc
}.

(** An entry of [__symbol_price_map]: [{"bid": ..., "ask": ...}]. *)
Record Quote := { bid : Qc; ask : Qc }.

(** The records that reach the log at level INFO or above, one constructor
    per [logging.info] / [logging.error] call of [manager.py]. *)
Inductive LogRecord :=
| info_num_orders (n : nat)
| info_mapping_symbols
| info_getting_snapshots (conids : list Z)
| error_getting_snapshots
| info_processing_orders
| info_processing_order (symbol : string) (symbol_price_map : gmap string Quote)
| info_skipping_order
| error_invalid_order_type (order_type : string)
| info_new_position (p : Position.t)
| info_existing_position (p : option Position.t)
| info_cancelling_subs
| info_exiting.

(** The exceptions the modelled code can raise. [StoreError] stands for
    whatever the Firestore client raises when a write is refused. *)
Inductive exn :=
| KeyError
| ValueError
| IndexError
| TypeError
| ValidationError
| UnboundLocalError
| StoreError.

(** ** State *)

(** The three collections, the manager's private fields, and the log.
    Documents of the orders collection are addressed by the [id] of the
    order they hold, as [document(order.id)] does. *)
Record State := mkState {
  orders_collection : list Order.t;
  portfolios_collection : gmap string Portfolio.t;
  contracts_collection : list Contract.t;
  orders : list Order.t;
  symbol_conid_map : list (string * Z);
  symbol_price_map : gmap string Quote;
  log : list LogRecord
}.

Definition set_orders_collection (v : list Order.t) (s : State) : State :=
  mkState v (portfolios_collection s) (contracts_collection s) (orders s)
          (symbol_conid_map s) (symbol_price_map s) (log s).

Definition set_portfolios_collection (v : gmap string Portfolio.t) (s : State) : State :=
  mkState (orders_collection s) v (contracts_collection s) (orders s)
          (symbol_conid_map s) (symbol_price_map s) (log s).

Definition set_orders (v : list Order.t) (s : State) : State :=
  mkState (orders_collection s) (portfolios_collection s) (contracts_collection s) v
          (symbol_conid_map s) (symbol_price_map s) (log s).

Definition set_symbol_conid_map (v : list (string * Z)) (s : State) : State :=
  mkState (orders_collection s) (portfolios_collection s) (contracts_collection s)
          (orders s) v (symbol_price_map s) (log s).

Definition set_symbol_price_map (v : gmap string Quote) (s : State) : State :=
  mkState (orders_collection s) (portfolios_collection s) (contracts_collection s)
          (orders s) (symbol_conid_map s) v (log s).

Definition add_log (r : LogRecord) (s : State) : State :=
  mkState (orders_collection s) (portfolios_collection s) (contracts_collection s)
          (orders s) (symbol_conid_map s) (symbol_price_map s) (log s ++ [r]).

(** What the outside world contributes to one cycle. *)
Record External := {
  (** [api_session.market_data_snapshot(conids, fields)]: the snapshots, or
      [None] when the call raises an [Exception]. *)
  market_data_snapshot : list Z → list string → option (list Snapshot);
  (** whether [document(portfolio_id).set(data)] is accepted; when it is
      not, the call raises and the collection is left as it was. *)
  portfolio_set_ok : string → Portfolio.t → bool;
  (** a [KeyboardInterrupt] arrives during the sleep that ends the cycle *)
  keyboard_interrupt : bool
}.

(** ** A state monad with exceptions *)

Inductive Res (A : Type) :=
| Ok (a : A) (s : State)
| Raise (e : exn) (s : State).
Arguments Ok {A} a s.
Arguments Raise {A} e s.

Definition M (A : Type) : Type := State → Res A.

Definition ret {A} (a : A) : M A := λ s, Ok a s.

Definition bind {A B} (m : M A) (k : A → M B) : M B :=
  λ s, match m s with
       | Ok a s' => k a s'
       | Raise e s' => Raise e s'
       end.

Definition raise {A} (e : exn) : M A := λ s, Raise e s.

Definition get : M State := λ s, Ok s s.

Definition modify (f : State → State) : M unit := λ s, Ok tt (f s).

Notation "x <- m ;; k" := (bind m (λ x, k))
  (at level 100, m at next level, right associativity).
Notation "m ;;; k" := (bind m (λ _, k))
  (at level 100, right associativity).

(** [for x in l: body x] *)
Fixpoint for_each {A} (l : list A) (body : A → M unit) : M unit :=
  match l with
  | [] => ret tt
  | x :: l' => body x ;;; for_each l' body
  end.

Definition logging_info (r : LogRecord) : M unit := modify (add_log r).
Definition logging_error (r : LogRecord) : M unit := modify (add_log r).

(** The final state of a run of [m], whether it returned or raised. *)
Definition final {A} (r : Res A) : State :=
  match r with Ok _ s => s | Raise _ s => s end.

(** ** Python dictionaries and lists, as far as the manager uses them *)

(** [d[k] = v] on an insertion-ordered dictionary: an existing key keeps
    its place, a new key goes to the end. *)
Fixpoint dict_set {V} (k : string) (v : V) (d : list (string * V)) : list (string * V) :=
  match d with
  | [] => [(k, v)]
  | (k', v') :: d' =>
      if decide (k' = k) then (k, v) :: d' else (k', v') :: dict_set k v d'
  end.

(** [d[k]], raising [KeyError] on a missing key. *)
Fixpoint dict_get {V} (k : string) (d : list (string * V)) : option V :=
  match d with
  | [] => None
  | (k', v') :: d' => if decide (k' = k) then Some v' else dict_get k d'
  end.

Definition dict_keys {V} (d : list (string * V)) : list string := d.*1.
Definition dict_values {V} (d : list (string * V)) : list V := d.*2.

(** [l.index(x)]: the position of the first element equal to [x]; Python
    raises [ValueError] when there is none. *)
Fixpoint index (x : Z) (l : list Z) : option nat :=
  match l with
  | [] => None
  | y :: l' => if decide (y = x) then Some 0%nat else S <$> index x l'
  end.

Definition lift {A} (e : exn) (o : option A) : M A :=
  match o with
  | Some a => ret a
  | None => raise e
  end.

(** ** The methods of [OrderManager] *)

(** [__update_orders]: reload the pending orders from the orders collection. *)
Definition update_orders : M unit :=
  s <- get;;
  let orders := orders_collection s in
  logging_info (info_num_orders (length orders));;;
  modify (set_orders orders).

(** [__map_orders_to_conids]: both maps are emptied, then every contract
    whose symbol is the symbol of a pending order enters the symbol-to-conid
    map. *)
Definition map_orders_to_conids : M unit :=
  modify (set_symbol_conid_map []);;;
  modify (set_symbol_price_map ∅);;;
  s <- get;;
  if decide (length (orders s) = 0%nat) then ret tt else
  logging_info info_mapping_symbols;;;
  let contracts :=
    filter (λ c, Contract.symbol c ∈ (Order.symbol <$> orders s)) (contracts_collection s) in
  for_each contracts (λ contract,
    modify (λ s, set_symbol_conid_map
                   (dict_set (Contract.symbol contract) (Contract.con_id contract)
                             (symbol_conid_map s)) s)).

Definition FIELDS : list string := ["84"; "86"].

(** The body of the loop over the returned snapshots: the symbol is found
    by reverse lookup of the identifier among the map's values; a snapshot
    without both fields is passed over. *)
Definition record_snapshot (snapshot : Snapshot) : M unit :=
  s <- get;;
  i <- lift ValueError (index (conidEx snapshot) (dict_values (symbol_conid_map s)));;
  symbol <- lift IndexError (dict_keys (symbol_conid_map s) !! i);;
  let has_fields := forallb (λ field, bool_decide (is_Some (fields snapshot !! field))) FIELDS in
  if negb has_fields then ret tt else
  b <- lift KeyError (fields snapshot !! "84");;
  a <- lift KeyError (fields snapshot !! "86");;
  modify (λ s, set_symbol_price_map
                 (<[symbol := {| bid := b; ask := a |}]> (symbol_price_map s)) s).

(** [__get_market_data_snapshots]: the call to the quote source is inside
    the [try]; the loop over its answer is after it. *)
Definition get_market_data_snapshots (ext : External) : M unit :=
  s <- get;;
  let conids := dict_values (symbol_conid_map s) in
  if decide (conids = []) then ret tt else
  logging_info (info_getting_snapshots conids);;;
  match market_data_snapshot ext conids FIELDS with
  | None => logging_error error_getting_snapshots
  | Some snapshots => for_each snapshots record_snapshot
  end.

(** [__create_position] *)
Definition create_position (order : Order.t) (fill_price : Qc) : M Position.t :=
  s <- get;;
  conid <- lift KeyError (dict_get (Order.symbol order) (symbol_conid_map s));;
  ret {| Position.symbol := Order.symbol order;
         Position.quantity := Order.quantity order;
         Position.side := Some (Order.side order);
         Position.conid := conid;
         Position.value := (Order.quantity order * fill_price)%Qc |}.

(** [__update_existing_buy_position] *)
Definition update_existing_buy_position
    (existing_position new_position : Position.t) : Position.t :=
  if decide (Position.side new_position = Some BUY) then
    {| Position.symbol := Position.symbol existing_position;
       Position.quantity := (Position.quantity existing_position + Position.quantity new_position)%Qc;
       Position.side := Position.side existing_position;
       Position.conid := Position.conid existing_position;
       Position.value := (Position.value existing_position + Position.value new_position)%Qc |}
  else
    {| Position.symbol := Position.symbol existing_position;
       Position.quantity := (Position.quantity existing_position - Position.quantity new_position)%Qc;
       Position.side := Position.side existing_position;
       Position.conid := Position.conid existing_position;
       Position.value := (Position.value existing_position - Position.value new_position)%Qc |}.

(** [__update_existing_sell_position] *)
Definition update_existing_sell_position
    (existing_position new_position : Position.t) : Position.t :=
  if decide (Position.side new_position = Some BUY) then
    {| Position.symbol := Position.symbol existing_position;
       Position.quantity := (Position.quantity existing_position - Position.quantity new_position)%Qc;
       Position.side := Position.side existing_position;
       Position.conid := Position.conid existing_position;
       Position.value := (Position.value existing_position - Position.value new_position)%Qc |}
  else
    {| Position.symbol := Position.symbol existing_position;
       Position.quantity := (Position.quantity existing_position + Position.quantity new_position)%Qc;
       Position.side := Position.side existing_position;
       Position.conid := Position.conid existing_position;
       Position.value := (Position.value existing_position + Position.value new_position)%Qc |}.

(** The side assigned from the sign of a quantity. *)
Definition side_of_quantity (quantity : Qc) : option Side :=
  if decide (quantity < 0)%Qc then Some SELL
  else if decide (0 < quantity)%Qc then Some BUY
  else None.

(** [__update_existing_position]: with a side that is neither "BUY" nor
    "SELL" no branch binds [updated_position] and its first use raises. *)
Definition update_existing_position
    (existing_position new_position : Position.t) : M Position.t :=
  updated_position <-
    match Position.side existing_position with
    | Some BUY => ret (update_existing_buy_position existing_position new_position)
    | Some SELL => ret (update_existing_sell_position existing_position new_position)
    | None => raise UnboundLocalError
    end;;
  ret {| Position.symbol := Position.symbol updated_position;
         Position.quantity := Position.quantity updated_position;
         Position.side := side_of_quantity (Position.quantity updated_position);
         Position.conid := Position.conid updated_position;
         Position.value := Position.value updated_position |}.

(** [__add_new_position] *)
Definition add_new_position (new_position : Position.t) (portfolio : Portfolio.t)
    : Portfolio.t :=
  {| Portfolio.id := Portfolio.id portfolio;
     Portfolio.orders := Portfolio.orders portfolio;
     Portfolio.positions := Portfolio.positions portfolio ++ [new_position] |}.

(** [__remove_order]: the document is deleted from the orders collection at
    once; the portfolio is only changed in memory. *)
Definition remove_order (order : Order.t) (portfolio : Portfolio.t) : M Portfolio.t :=
  modify (λ s, set_orders_collection
                 (filter (λ o, Order.id o ≠ Order.id order) (orders_collection s)) s);;;
  ret {| Portfolio.id := Portfolio.id portfolio;
         Portfolio.orders := filter (λ o, Order.id o ≠ Order.id order) (Portfolio.orders portfolio);
         Portfolio.positions := Portfolio.positions portfolio |}.

(** [document(portfolio_id).set(data)] *)
Definition portfolio_set (ext : External) (portfolio_id : string) (data : Portfolio.t)
    : M unit :=
  if portfolio_set_ok ext portfolio_id data
  then modify (λ s, set_portfolios_collection (<[portfolio_id := data]> (portfolios_collection s)) s)
  else raise StoreError.

(** [__update_positions]. A missing portfolio document makes [to_dict()]
    return [None], which [Portfolio.parse_obj] rejects. *)
Definition update_positions (ext : External) (new_position : Position.t) (order : Order.t)
    : M unit :=
  s <- get;;
  let portfolio_data := portfolios_collection s !! Order.portfolio_id order in
  logging_info (info_new_position new_position);;;
  portfolio <- lift ValidationError portfolio_data;;
  let existing_position :=
    head (filter (λ position, Position.symbol position = Position.symbol new_position)
                 (Portfolio.positions portfolio)) in
  logging_info (info_existing_position existing_position);;;
  portfolio <-
    match existing_position with
    | Some existing =>
        if decide (Position.side existing ≠ None) then
          updated_position <- update_existing_position existing new_position;;
          ret {| Portfolio.id := Portfolio.id portfolio;
                 Portfolio.orders := Portfolio.orders portfolio;
                 Portfolio.positions :=
                   (λ position,
                      if decide (Position.symbol position = Position.symbol updated_position)
                      then updated_position else position) <$> Portfolio.positions portfolio |}
        else ret (add_new_position new_position portfolio)
    | None => ret (add_new_position new_position portfolio)
    end;;
  portfolio <- remove_order order portfolio;;
  portfolio_set ext (Order.portfolio_id order) portfolio.

(** [__process_market_order] *)
Definition process_market_order (ext : External) (order : Order.t)
    (ask_price bid_price : Qc) : M unit :=
  let fill_price := if decide (Order.side order = BUY) then ask_price else bid_price in
  position <- create_position order fill_price;;
  update_positions ext position order.

(** A comparison of a price with the limit price: comparing a number with
    [None] raises [TypeError]. *)
Definition compare_with_limit (test : Qc → bool) (order_limit_price : option Qc) : M bool :=
  match order_limit_price with
  | Some l => ret (test l)
  | None => raise TypeError
  end.

(** [__process_limit_order]. [and] evaluates its right operand only when
    the left one holds. *)
Definition process_limit_order (ext : External) (order : Order.t)
    (ask_price bid_price : Qc) : M unit :=
  let order_limit_price := Order.limit_price order in
  too_dear <-
    (if decide (Order.side order = BUY)
     then compare_with_limit (λ l, bool_decide (l < ask_price)%Qc) order_limit_price
     else ret false);;
  if too_dear : bool then ret tt else
  too_cheap <-
    (if decide (Order.side order = SELL)
     then compare_with_limit (λ l, bool_decide (bid_price < l)%Qc) order_limit_price
     else ret false);;
  if too_cheap : bool then ret tt else
  let fill_price := if decide (Order.side order = BUY) then ask_price else bid_price in
  position <- create_position order fill_price;;
  update_positions ext position order.

(** [__process_order_single] *)
Definition process_order_single (ext : External) (order : Order.t) : M unit :=
  s <- get;;
  quote <- lift KeyError (symbol_price_map s !! Order.symbol order);;
  let ask_price := ask quote in
  let bid_price := bid quote in
  if decide (Order.order_type order = "MKT") then
    process_market_order ext order ask_price bid_price
  else if decide (Order.order_type order = "LMT") then
    process_limit_order ext order ask_price bid_price
  else
    logging_error (error_invalid_order_type (Order.order_type order));;;
    process_market_order ext order ask_price bid_price.

(** The body of the loop of [__process_orders]. *)
Definition process_order (ext : External) (order : Order.t) : M unit :=
  s <- get;;
  logging_info (info_processing_order (Order.symbol order) (symbol_price_map s));;;
  if decide (symbol_price_map s !! Order.symbol order = None) then
    logging_info info_skipping_order
  else process_order_single ext order.

(** [__process_orders] *)
Definition process_orders (ext : External) : M unit :=
  logging_info info_processing_orders;;;
  s <- get;;
  for_each (orders s) (process_order ext).

(** [__cancel_market_data_subs] *)
Definition cancel_market_data_subs : M unit :=
  logging_info info_cancelling_subs.

(** One pass of the loop of [run], up to the sleep. *)
Definition cycle (ext : External) : M unit :=
  update_orders;;;
  map_orders_to_conids;;;
  get_market_data_snapshots ext;;;
  process_orders ext.

Definition NUM_REQUESTS_BEFORE_CANCELLING_EXISTING_SUBS : nat := 10.

(** How [run] stands after the cycles it was given: it left through its
    [except KeyboardInterrupt] handler, it was ended by an exception it
    does not catch, or it is still looping. *)
Inductive Outcome :=
| Exited
| Uncaught (e : exn)
| Looping.

(** [run]: the loop is unbounded in the source; here it consumes one
    [External] per cycle and reports [Looping] when they are used up. *)
Fixpoint run_loop (world : list External) (num_requests : nat) (s : State)
    : Outcome * State :=
  match world with
  | [] => (Looping, s)
  | ext :: world' =>
      match cycle ext s with
      | Raise e s' => (Uncaught e, s')
      | Ok _ s' =>
          let num_requests := S num_requests in
          let '(num_requests, s') :=
            if decide (num_requests = NUM_REQUESTS_BEFORE_CANCELLING_EXISTING_SUBS)
            then (0%nat, final (cancel_market_data_subs s'))
            else (num_requests, s') in
          if keyboard_interrupt ext
          then (Exited, final ((cancel_market_data_subs;;; logging_info info_exiting) s'))
          else run_loop world' num_requests s'
      end
  end.

Definition run (world : list External) (s : State) : Outcome * State :=
  run_loop world 0 s.

(** ** Reading a state *)

(** The positions and the order references stored for a portfolio (none
    when the portfolio has no document). *)
Definition positions_of (portfolio_id : string) (s : State) : list Position.t :=
  match portfolios_collection s !! portfolio_id with
  | Some portfolio => Portfolio.positions portfolio
  | None => []
  end.

Definition order_refs_of (portfolio_id : string) (s : State) : list Order.t :=
  match portfolios_collection s !! portfolio_id with
  | Some portfolio => Portfolio.orders portfolio
  | None => []
  end.

(** The side a position should carry according to the sign of its quantity. *)
Definition side_matches_quantity (p : Position.t) : Prop :=
  Position.side p = side_of_quantity (Position.quantity p).

#[global] Instance side_matches_quantity_dec p : Decision (side_matches_quantity p).
Proof. unfold side_matches_quantity. apply _. Defined.

(** A decimal literal: [dec n d] is the rational n/d. *)
Definition dec (n : Z) (d : positive) : Qc := Q2Qc (n # d).

(** A cooperative outside world: the quote source answers [snapshots] and
    every portfolio write is accepted. *)
Definition friendly (snapshots : list Snapshot) : External :=
  {| market_data_snapshot := λ _ _, Some snapshots;
     portfolio_set_ok := λ _ _, true;
     keyboard_interrupt := false |}.

(** The netting rule as the specification words it: quantities (and values)
    are added when the fill is on the side of the position and subtracted
    when it is on the other side. *)
Definition four_case (existing_side fill_side : Side) (x y : Qc) : Qc :=
  match existing_side, fill_side with
  | BUY, BUY => x + y
  | BUY, SELL => x - y
  | SELL, BUY => x - y
  | SELL, SELL => x + y
  end%Qc.

(** The position the specification's rule yields from [existing] and a fill. *)
Definition netted (existing_side fill_side : Side) (existing fill : Position.t)
    : Position.t :=
  let quantity :=
    four_case existing_side fill_side (Position.quantity existing) (Position.quantity fill) in
  {| Position.symbol := Position.symbol existing;
     Position.quantity := quantity;
     Position.side := side_of_quantity quantity;
     Position.conid := Position.conid existing;
     Position.value :=
       four_case existing_side fill_side (Position.value existing) (Position.value fill) |}.

(** A position with its side set again from the sign of its quantity, as
    the last lines of [__update_existing_position] do. *)
Definition side_recomputed (p : Position.t) : Position.t :=
  {| Position.symbol := Position.symbol p;
     Position.quantity := Position.quantity p;
     Position.side := side_of_quantity (Position.quantity p);
     Position.conid := Position.conid p;
     Position.value := Position.value p |}.

(** Every entry for the symbol of [updated] is replaced by [updated]. *)
Definition replace_position (updated : Position.t) (positions : list Position.t)
    : list Position.t :=
  (λ position, if decide (Position.symbol position = Position.symbol updated)
               then updated else position) <$> positions.

(** The first entry of a portfolio for a symbol. *)
Definition existing_for (symbol : string) (positions : list Position.t)
    : option Position.t :=
  head (filter (λ position, Position.symbol position = symbol) positions).

(** The state just before the portfolio write of a fill: both log records
    written, the order's document deleted. *)
Definition before_write (new_position : Position.t) (order : Order.t) (s : State) : State :=
  set_orders_collection
    (filter (λ o, Order.id o ≠ Order.id order) (orders_collection s))
    (add_log (info_existing_position
                (match portfolios_collection s !! Order.portfolio_id order with
                 | Some portfolio =>
                     existing_for (Position.symbol new_position) (Portfolio.positions portfolio)
                 | None => None
                 end))
             (add_log (info_new_position new_position) s)).

Definition without_order (order : Order.t) (refs : list Order.t) : list Order.t :=
  filter (λ o, Order.id o ≠ Order.id order) refs.

(** The fill record of the specification: symbol, instrument, side,
    quantity, and total value = quantity × fill price. *)
Definition fill_record (order : Order.t) (conid : Z) (fill_price : Qc) : Position.t :=
  {| Position.symbol := Order.symbol order;
     Position.quantity := Order.quantity order;
     Position.side := Some (Order.side order);
     Position.conid := conid;
     Position.value := (Order.quantity order * fill_price)%Qc |}.

(** The crossing price: the ask for a BUY, the bid for a SELL. *)
Definition crossing_price (side : Side) (quote : Quote) : Qc :=
  match side with
  | BUY => ask quote
  | SELL => bid quote
  end.

(** The quote satisfies the limit: ask ≤ limit for a BUY, bid ≥ limit for a
    SELL. *)
Definition limit_met (side : Side) (limit : Qc) (quote : Quote) : Prop :=
  match side with
  | BUY => (ask quote ≤ limit)%Qc
  | SELL => (limit ≤ bid quote)%Qc
  end.

(** Every quoted symbol has an instrument identifier. The quote refresh
    establishes this and order processing keeps it (see
    [refresh_quotes_resolved] and [process_order_keeps_maps]). *)
Definition quotes_resolved (s : State) : Prop :=
  ∀ symbol, is_Some (symbol_price_map s !! symbol) →
            is_Some (dict_get symbol (symbol_conid_map s)).

(** Two states hold the same documents in the orders and portfolios
    collections. *)
Definition same_stores (s s' : State) : Prop :=
  orders_collection s' = orders_collection s ∧
  portfolios_collection s' = portfolios_collection s.

(** No pending document and no reference of the order's portfolio carries
    the order's identifier. *)
Definition retired (order : Order.t) (s : State) : Prop :=
  (∀ o, o ∈ orders_collection s → Order.id o ≠ Order.id order) ∧
  (∀ o, o ∈ order_refs_of (Order.portfolio_id order) s → Order.id o ≠ Order.id order).

(** ** A small world for worked examples

    One portfolio "P", one listed symbol "ABC" (instrument 265598), quoted
    at bid 9.50 / ask 9.55 unless said otherwise. *)

Definition abc_snapshot (bid_price ask_price : Qc) : Snapshot :=
  {| conidEx := 265598; fields := {[ "84" := bid_price; "86" := ask_price ]} |}.

Definition abc_quote : Snapshot := abc_snapshot (dec 950 100) (dec 955 100).

Definition market_order (id : string) (side : Side) (quantity : Qc) : Order.t :=
  Order.mk id "P" "ABC" "MKT" side quantity None.

Definition limit_order (id : string) (side : Side) (quantity limit : Qc) : Order.t :=
  Order.mk id "P" "ABC" "LMT" side quantity (Some limit).

(** The state at the start of a cycle: [pending] orders in the store and in
    the portfolio's references, [positions] held, nothing cached. *)
Definition world_with (pending : list Order.t) (positions : list Position.t) : State :=
  mkState pending {[ "P" := Portfolio.mk "P" pending positions ]}
          [Contract.mk "ABC" 265598] [] [] ∅ [].

(** An outside world whose portfolio store refuses every write. *)
Definition refusing (snapshots : list Snapshot) : External :=
  {| market_data_snapshot := λ _ _, Some snapshots;
     portfolio_set_ok := λ _ _, false;
     keyboard_interrupt := false |}.

(** An outside world whose quote source raises on every call. *)
Definition unreachable : External :=
  {| market_data_snapshot := λ _ _, None;
     portfolio_set_ok := λ _ _, true;
     keyboard_interrupt := false |}.

(** The example world once the quote refresh has run: "ABC" resolved and
    quoted at [quote]. *)
Definition quoted_world (pending : list Order.t) (positions : list Position.t)
    (quote : Quote) : State :=
  mkState pending {[ "P" := Portfolio.mk "P" pending positions ]}
          [Contract.mk "ABC" 265598] pending [("ABC", 265598%Z)] {[ "ABC" := quote ]} [].

Definition abc_bid_ask : Quote := {| bid := dec 950 100; ask := dec 955 100 |}.

(** The first two steps of a cycle: reload the orders, resolve their
    symbols. *)
Definition resolve_instruments : M unit :=
  update_orders;;; map_orders_to_conids.

(** What [resolve_instruments] leaves behind when started in [s]. *)
Definition resolved_from (s s1 : State) : Prop :=
  same_stores s s1 ∧
  orders s1 = orders_collection s ∧
  symbol_price_map s1 = ∅ ∧
  log s1 = log s ++ info_num_orders (length (orders_collection s))
                  :: (if decide (length (orders_collection s) = 0%nat)
                      then [] else [info_mapping_symbols]) ∧
  (length (orders_collection s) = 0%nat → symbol_conid_map s1 = []).

(** The positions of portfolio "P" after one cycle in the example world. *)
Definition after_cycle (snapshot : Snapshot) (pending : list Order.t)
    (positions : list Position.t) : list Position.t :=
  positions_of "P" (final (cycle (friendly [snapshot]) (world_with pending positions))).

Definition abc_position (side : option Side) (quantity value : Qc) : Position.t :=
  Position.mk "ABC" quantity side 265598 value.

(** ** Properties of whole computations *)

(** [steady R m]: from any state, [m] ends, returning or raising, in a
    state related by [R] to the one it started in. *)
Definition steady (R : State → State → Prop) {A} (m : M A) : Prop :=
  ∀ s, R s (final (m s)).

(** The number of times the log records a cancellation of the market data
    subscriptions, that is, a call of [__cancel_market_data_subs]. *)
Fixpoint cancellations (records : list LogRecord) : nat :=
  match records with
  | [] => 0
  | info_cancelling_subs :: records' => S (cancellations records')
  | _ :: records' => cancellations records'
  end.

(** The log gained no cancellation. *)
Definition no_cancellation (s s' : State) : Prop :=
  cancellations (log s') = cancellations (log s).

(** The orders collection lost documents at most, and the contracts
    collection is what it was. *)
Definition orders_only_leave (s s' : State) : Prop :=
  orders_collection s' `sublist_of` orders_collection s ∧
  contracts_collection s' = contracts_collection s.

(** Only the portfolios named in [touched] may have changed. *)
Definition portfolios_outside (touched : list string) (s s' : State) : Prop :=
  ∀ portfolio_id, portfolio_id ∉ touched →
    portfolios_collection s' !! portfolio_id = portfolios_collection s !! portfolio_id.

(** The manager's list of orders is what it was. *)
Definition orders_kept (s s' : State) : Prop := orders s' = orders s.

(** An outside world in which an interrupt arrives during the sleep. *)
Definition interrupted (snapshots : list Snapshot) : External :=
  {| market_data_snapshot := λ _ _, Some snapshots;
     portfolio_set_ok := λ _ _, true;
     keyboard_interrupt := true |}.

(** The symbol that the reverse lookup of [__get_market_data_snapshots]
    finds for an identifier: the first key, in insertion order, whose value
    is that identifier. *)
Definition symbol_of (conid : Z) (d : list (string * Z)) : option string :=
  i ← index conid (dict_values d); dict_keys d !! i.

(** The quote a snapshot carries when it has both fields. *)
Definition quote_of (snapshot : Snapshot) : option Quote :=
  b ← fields snapshot !! "84"; a ← fields snapshot !! "86"; Some {| bid := b; ask := a |}.

(** A snapshot that quotes [symbol]: complete, and looked up to [symbol]. *)
Definition quotes (symbol : string) (d : list (string * Z)) (snapshot : Snapshot) : Prop :=
  symbol_of (conidEx snapshot) d = Some symbol ∧ is_Some (quote_of snapshot).

#[global] Instance quotes_dec symbol d snapshot : Decision (quotes symbol d snapshot).
Proof. unfold quotes. apply _. Defined.

(** The symbols of the entries of a portfolio, in the order of the list. *)
Definition symbols_held (portfolio_id : string) (s : State) : list string :=
  Position.symbol <$> positions_of portfolio_id s.

(** The entry of a portfolio that a fill for [symbol] looks at. *)
Definition first_entry (portfolio_id symbol : string) (s : State) : option Position.t :=
  existing_for symbol (positions_of portfolio_id s).

(** No entry was removed or moved, and an entry without a side that was
    the first of its symbol is what it was. *)
Definition positions_stay (s s' : State) : Prop :=
  ∀ portfolio_id,
    symbols_held portfolio_id s `prefix_of` symbols_held portfolio_id s' ∧
    ∀ symbol p, first_entry portfolio_id symbol s = Some p → Position.side p = None →
                first_entry portfolio_id symbol s' = Some p.

(** The entries of every portfolio for symbols outside [touched] are what
    they were. *)
Definition symbols_outside (touched : list string) (s s' : State) : Prop :=
  ∀ portfolio_id,
    filter (λ p, Position.symbol p ∉ touched) (positions_of portfolio_id s')
    = filter (λ p, Position.symbol p ∉ touched) (positions_of portfolio_id s).

(** ** [main.py]: the bar filter *)

Module main.

(** The exceptions the functions of [main.py] can raise. *)
Inductive error :=
| KeyError
| ValueError
| IndexError
| ApiError
| HTTPException (status_code : Z).

Inductive result (A : Type) :=
| Return (a : A)
| Raises (e : error).
Arguments Return {A} a.
Arguments Raises {A} e.

Definition bind {A B} (r : result A) (k : A → result B) : result B :=
  match r with
  | Return a => k a
  | Raises e => Raises e
  end.

Notation "x <~ r ;; k" := (bind r (λ x, k))
  (at level 100, r at next level, right associativity).

(** A bar of the historical data: a dictionary of numbers ("o", "h", "l",
    "c", "v", "t"). *)
Abbreviation Bar := (gmap string Qc).

(** [d[key]] *)
Definition subscript (d : gmap string Qc) (key : string) : result Qc :=
  match d !! key with
  | Some v => Return v
  | None => Raises KeyError
  end.

(** [[f(x) for x in l if test(x)]] *)
Fixpoint comprehension {A B} (test : A → result bool) (f : A → result B) (l : list A)
    : result (list B) :=
  match l with
  | [] => Return []
  | x :: l' =>
      keep <~ test x;;
      if keep : bool then
        y <~ f x;;
        ys <~ comprehension test f l';;
        Return (y :: ys)
      else comprehension test f l'
  end.

(** A float that may be [numpy.nan], which is [None] here; the other floats
    are exact rationals, as the prices of the order manager are. *)
Abbreviation float := (option Qc).

(** [x < y]: every comparison with NaN is false. *)
Definition lt (x : Qc) (y : float) : bool :=
  match y with
  | Some y => bool_decide (x < y)%Qc
  | None => false
  end.

(** [c * y] *)
Definition times (c : Qc) (y : float) : float := (λ y, c * y)%Qc <$> y.

Definition dot (a w : list Qc) : Qc := foldr Qcplus 0%Qc (zip_with Qcmult a w).

(** [numpy.correlate(a, w, "valid")] for non-empty [w] no longer than [a]:
    one product sum for every place where [w] lies inside [a]. *)
Fixpoint correlate_valid (a w : list Qc) : list Qc :=
  match a with
  | [] => []
  | _ :: a' =>
      if decide (length w ≤ length a)%nat then dot a w :: correlate_valid a' w else []
  end.

(** [numpy.convolve(a, v, "valid")]: the longer argument comes first, an
    empty argument is refused, and the second one is reversed. *)
Definition convolve_valid (a v : list Qc) : result (list Qc) :=
  let '(a, v) := if decide (length a < length v)%nat then (v, a) else (a, v) in
  if decide (length a = 0%nat) then Raises ValueError
  else if decide (length v = 0%nat) then Raises ValueError
  else Return (correlate_valid a (rev v)).

Definition MOVING_AVERAGE_WINDOW : nat := 3.
Definition MOVING_AVERAGE_FILTER_THRESHOLD : Qc := dec 15 10.

(** [filter_bars] *)
Definition filter_bars (bars : list Bar) : result (list Bar) :=
  open_prices <~ comprehension (λ _, Return true) (λ bar, subscript bar "o") bars;;
  convolved <~ convolve_valid open_prices (replicate MOVING_AVERAGE_WINDOW 1%Qc);;
  let open_price_ma := (λ x, x / dec (Z.of_nat MOVING_AVERAGE_WINDOW) 1)%Qc <$> convolved in
  let open_prices_ma : list float := replicate 10 None ++ (Some <$> open_price_ma) in
  comprehension
    (λ '(bar, open_ma),
       o <~ subscript bar "o";;
       Return (lt o (times MOVING_AVERAGE_FILTER_THRESHOLD open_ma)))
    (λ '(bar, open_ma), Return bar)
    (zip bars open_prices_ma).

(** *** The historical data endpoint *)

(** A document of the [hmds] collection as the endpoint writes it. Times
    are in microseconds, the resolution of [datetime]; [isoformat] and
    [fromisoformat] are taken to be inverse to each other. *)
Module MarketData.
Record t := mk {
  symbol : string;
  last_updated : Z;
  bars : list Bar
}.
End MarketData.

(** What the endpoint reads and writes: the two collections, and the
    [conid]s for which historical data has been requested from the
    brokerage API, in the order of the requests. *)
Record Store := mkStore {
  hmds_collection : gmap string MarketData.t;
  contracts_collection : list Contract.t;
  requests : list Z
}.

(** What a call of the endpoint takes from outside. *)
Record Environment := {
  (** [str.upper] *)
  upper : string → string;
  (** [datetime.datetime.now()] at the staleness check *)
  now_at_check : Z;
  (** [datetime.datetime.now()] when the new document is built *)
  now_at_store : Z;
  (** [api_session.historical_market_data(conid, period, bar, ...)]: the
      response, a dictionary, or an exception *)
  historical_market_data : Z → string → string → result (gmap string (list Bar));
  (** the truth value of a contract document, for [if not contract] *)
  truth_value : Contract.t → bool
}.

(** [datetime.timedelta(days=1)] *)
Definition ONE_DAY : Z := 86400000000.

(** [request_historical_data] *)
Definition request_historical_data (env : Environment) (conid : Z) (period bar : string)
    (st : Store) : result (list Bar) * Store :=
  let st := mkStore (hmds_collection st) (contracts_collection st) (requests st ++ [conid]) in
  match historical_market_data env conid period bar with
  | Raises e => (Raises e, st)
  | Return response =>
      match response !! "data" with
      | None => (Raises KeyError, st)
      | Some bars => (filter_bars bars, st)
      end
  end.

(** [get_historical_market_data], the [/hmds] endpoint *)
Definition get_historical_market_data (env : Environment) (symbol : string) (st : Store)
    : result MarketData.t * Store :=
  let symbol_upper := upper env symbol in
  let fresh :=
    match hmds_collection st !! symbol_upper with
    | Some market_data =>
        let is_stale_data :=
          bool_decide (ONE_DAY < now_at_check env - MarketData.last_updated market_data)%Z in
        if negb is_stale_data then Some market_data else None
    | None => None
    end in
  match fresh with
  | Some market_data => (Return market_data, st)
  | None =>
      match filter (λ c, Contract.symbol c = symbol_upper) (contracts_collection st) with
      | [] => (Raises IndexError, st)
      | contract :: _ =>
          if negb (truth_value env contract) then (Raises (HTTPException 404), st) else
          let conid := Contract.con_id contract in
          match request_historical_data env conid "1y" "1d" st with
          | (Raises e, st) => (Raises e, st)
          | (Return historical_data, st) =>
              let market_data :=
                MarketData.mk (upper env symbol) (now_at_store env) historical_data in
              (Return market_data,
               mkStore (<[symbol_upper := market_data]> (hmds_collection st))
                       (contracts_collection st) (requests st))
          end
      end
  end.

End main.

(** The open price of the bar at index [i]. *)
Definition open_at (bars : list main.Bar) (i : nat) : option Qc :=
  bar ← bars !! i; bar !! "o".

(** The average that [filter_bars] holds against the bar at index [i]: none
    for the first ten bars, then the mean of the opens of the bars ten, nine
    and eight places before it. *)
Definition average_held_against (bars : list main.Bar) (i : nat) : option Qc :=
  if decide (i < 10)%nat then None else
  a ← open_at bars (i - 10); b ← open_at bars (i - 9); c ← open_at bars (i - 8);
  Some ((a + b + c) / dec 3 1)%Qc.

(** Whether the bar at index [i] passes the filter. *)
Definition passes (bars : list main.Bar) (i : nat) : bool :=
  match open_at bars i, average_held_against bars i with
  | Some o, Some average => bool_decide (o < dec 15 10 * average)%Qc
  | _, _ => false
  end.

(** A bar of which only the open price is given. *)
Definition bar_opening (o : Qc) : main.Bar := {[ "o" := o ]}.

(** Twelve bars: ten opening at 10, then one at 14 and one at 15. *)
Definition twelve_bars : list main.Bar :=
  replicate 10 (bar_opening (dec 10 1)) ++ [bar_opening (dec 14 1); bar_opening (dec 15 1)].

(** A brokerage API that answers every request with the given bars, at
    time 0, for symbols that are already in upper case. *)
Definition answering (bars : list main.Bar) : main.Environment :=
  {| main.upper := λ symbol, symbol;
     main.now_at_check := 0;
     main.now_at_store := 0;
     main.historical_market_data := λ _ _ _, main.Return {[ "data" := bars ]};
     main.truth_value := λ _, true |}.

(** A store without documents that knows the contract of ABC. *)
Definition abc_store : main.Store := main.mkStore ∅ [Contract.mk "ABC" 265598] [].

(** ** [app/utils.py]: the brokerage session *)

Module utils.

(** What one attempt to open the session meets. *)
Inductive Attempt :=
| ConfigUnreadable  (** reading the OAuth configuration raises, before the [try] *)
| Refused           (** an [Exception] inside the [try] *)
| Connected.

Inductive Event :=
| info_attempt (attempt_count : nat)
| error_initialising
| info_retrying (seconds : Z)
| sleep (seconds : Z)
| tickle
| info_tickle_response
| auth_status
| info_session_status
| reauthenticate
| error_managing
| info_exiting_thread
| logout.

#[global] Instance Event_eq_dec : EqDecision Event.
Proof. solve_decision. Defined.

(** The longest sleep, in seconds, that [time.sleep] accepts: a longer one
    does not fit the interpreter's 64-bit count of nanoseconds and raises
    [OverflowError]. Of the sleeps of [init_api_session], 2^33 seconds is
    accepted and 2^34 is not. *)
Definition MAX_SLEEP : Z := 9223372036.

(** How [init_api_session] stands after the attempts it was given: it
    returned the session opened at some attempt, it was ended by an
    exception (from reading the configuration, or from a sleep that is too
    long, raised inside the handler), or it is still retrying. *)
Inductive Started :=
| Session (attempt_count : nat)
| ConfigError
| SleepOverflow
| Retrying.

(** [init_api_session]. The recursion is unbounded in the source; here it
    consumes one [Attempt] per call. *)
Fixpoint init_api_session (world : list Attempt) (attempt_count : nat)
    : Started * list Event :=
  let sleep_between_attempts := (2 ^ Z.of_nat attempt_count)%Z in
  match world with
  | [] => (Retrying, [])
  | attempt :: world' =>
      match attempt with
      | ConfigUnreadable => (ConfigError, [info_attempt attempt_count])
      | Connected => (Session attempt_count, [info_attempt attempt_count])
      | Refused =>
          let events :=
            [info_attempt attempt_count; error_initialising;
             info_retrying sleep_between_attempts] in
          if decide (sleep_between_attempts ≤ MAX_SLEEP)%Z then
            let '(outcome, later) := init_api_session world' (S attempt_count) in
            (outcome, events ++ [sleep sleep_between_attempts] ++ later)
          else (SleepOverflow, events)
      end
  end.

(** How a call that may be interrupted ends. *)
Inductive Call (A : Type) :=
| Returns (a : A)
| Fails        (** raises an [Exception] *)
| Interrupted  (** raises [KeyboardInterrupt] *).
Arguments Returns {A} a.
Arguments Fails {A}.
Arguments Interrupted {A}.

#[global] Instance Call_eq_dec {A} `{EqDecision A} : EqDecision (Call A).
Proof. solve_decision. Defined.

(** What one pass of the loop of [keep_api_session_alive] meets. The
    status is the value under "authenticated", if the key is there. *)
Record Pass := {
  tickle_call : Call unit;
  auth_status_call : Call (option bool);
  reauthenticate_call : Call unit;
  logout_call : Call unit;
  sleep_call : Call unit
}.

(** How the [try] block of a pass ends. *)
Inductive Tried := Completed | Excepted | KeyboardInterrupt.

(** The [try] block. *)
Definition try_block (pass : Pass) : Tried * list Event :=
  match tickle_call pass with
  | Fails => (Excepted, [tickle])
  | Interrupted => (KeyboardInterrupt, [tickle])
  | Returns _ =>
      match auth_status_call pass with
      | Fails => (Excepted, [tickle; info_tickle_response; auth_status])
      | Interrupted => (KeyboardInterrupt, [tickle; info_tickle_response; auth_status])
      | Returns status =>
          let events := [tickle; info_tickle_response; auth_status; info_session_status] in
          match status with
          | None => (Excepted, events)
          | Some true => (Completed, events)
          | Some false =>
              match reauthenticate_call pass with
              | Returns _ => (Completed, events ++ [reauthenticate])
              | Fails => (Excepted, events ++ [reauthenticate])
              | Interrupted => (KeyboardInterrupt, events ++ [reauthenticate])
              end
          end
      end
  end.

Definition AUTH_TIMEOUT : Z := 60.

(** How [keep_api_session_alive] stands after the passes it was given. *)
Inductive Kept :=
| Running
| Left       (** through [break] *)
| Uncaught.

(** [keep_api_session_alive]. The handler of [KeyboardInterrupt] logs out
    and breaks; the [finally] clause sleeps in every case, and an exception
    raised in the handler or in the [finally] clause leaves the function. *)
Fixpoint keep_api_session_alive (world : list Pass) : Kept * list Event :=
  match world with
  | [] => (Running, [])
  | pass :: world' =>
      let '(tried, events) := try_block pass in
      let finally := [sleep AUTH_TIMEOUT] in
      match tried with
      | KeyboardInterrupt =>
          let events := events ++ [info_exiting_thread; logout] ++ finally in
          match logout_call pass, sleep_call pass with
          | Returns _, Returns _ => (Left, events)
          | _, _ => (Uncaught, events)
          end
      | _ =>
          let events :=
            events ++ (if tried is Excepted then [error_managing] else []) ++ finally in
          match sleep_call pass with
          | Returns _ =>
              let '(outcome, later) := keep_api_session_alive world' in
              (outcome, events ++ later)
          | _ => (Uncaught, events)
          end
      end
  end.

End utils.

(** The seconds slept in a trace. *)
Fixpoint seconds_slept (events : list utils.Event) : Z :=
  match events with
  | [] => 0
  | utils.sleep seconds :: events' => seconds + seconds_slept events'
  | _ :: events' => seconds_slept events'
  end.

(** How often an event occurs in a trace. *)
Definition occurrences (event : utils.Event) (events : list utils.Event) : nat :=
  length (filter (λ e, e = event) events).

(** A pass during which no interrupt arrives. *)
Definition uninterrupted (pass : utils.Pass) : Prop :=
  utils.tickle_call pass ≠ utils.Interrupted ∧
  utils.auth_status_call pass ≠ utils.Interrupted ∧
  utils.reauthenticate_call pass ≠ utils.Interrupted ∧
  utils.sleep_call pass = utils.Returns tt.

(** A pass in which the session is found unauthenticated. *)
Definition found_unauthenticated (pass : utils.Pass) : Prop :=
  utils.tickle_call pass = utils.Returns tt ∧
  utils.auth_status_call pass = utils.Returns (Some false).

#[global] Instance found_unauthenticated_dec pass : Decision (found_unauthenticated pass).
Proof. unfold found_unauthenticated. apply _. Defined.

(** A pass in which every call returns, with the given status. *)
Definition quiet_pass (authenticated : bool) : utils.Pass :=
  {| utils.tickle_call := utils.Returns tt;
     utils.auth_status_call := utils.Returns (Some authenticated);
     utils.reauthenticate_call := utils.Returns tt;
     utils.logout_call := utils.Returns tt;
     utils.sleep_call := utils.Returns tt |}.

(** A pass in which the first call raises an exception. *)
Definition failing_pass : utils.Pass :=
  {| utils.tickle_call := utils.Fails;
     utils.auth_status_call := utils.Fails;
     utils.reauthenticate_call := utils.Fails;
     utils.logout_call := utils.Returns tt;
     utils.sleep_call := utils.Returns tt |}.

(** A pass in which an interrupt arrives during the first call. *)
Definition interrupted_pass : utils.Pass :=
  {| utils.tickle_call := utils.Interrupted;
     utils.auth_status_call := utils.Returns (Some true);
     utils.reauthenticate_call := utils.Returns tt;
     utils.logout_call := utils.Returns tt;
     utils.sleep_call := utils.Returns tt |}.

(** A pass in which an interrupt arrives during the sleep. *)
Definition interrupted_sleep : utils.Pass :=
  {| utils.tickle_call := utils.Returns tt;
     utils.auth_status_call := utils.Returns (Some true);
     utils.reauthenticate_call := utils.Returns tt;
     utils.logout_call := utils.Returns tt;
     utils.sleep_call := utils.Interrupted |}.


(** The same API a little more than a day later, at 90000 seconds. *)
Definition late_answering (bars : list main.Bar) : main.Environment :=
  {| main.upper := λ symbol, symbol;
     main.now_at_check := 90000000000;
     main.now_at_store := 90000000000;
     main.historical_market_data := λ _ _ _, main.Return {[ "data" := bars ]};
     main.truth_value := λ _, true |}.

(** A store whose document for ABC was written at time 0, with twelve bars. *)
Definition stale_abc_store : main.Store :=
  main.mkStore {[ "ABC" := main.MarketData.mk "ABC" 0 twelve_bars ]}
               [Contract.mk "ABC" 265598] [].

(** ** Basic facts *)

Ltac run_monad :=
  unfold bind, get, modify, ret, raise, lift, logging_info, logging_error; simpl.

Ltac qc_values :=
  vm_compute; repeat first [ apply Qc_is_canon; reflexivity | reflexivity | f_equal ].

Lemma side_of_quantity_pos (q : Qc) : (0 < q)%Qc → side_of_quantity q = Some BUY.
Proof.
  intros H. unfold side_of_quantity.
  destruct (decide (q < 0)%Qc) as [Hn|_].
  - exfalso. apply (Qclt_not_le _ _ Hn). by apply Qclt_le_weak.
  - by rewrite decide_True.
Qed.

Lemma side_of_quantity_neg (q : Qc) : (q < 0)%Qc → side_of_quantity q = Some SELL.
Proof. intros H. unfold side_of_quantity. by rewrite decide_True. Qed.

Lemma side_of_quantity_zero : side_of_quantity 0%Qc = None.
Proof. reflexivity. Qed.

Lemma side_of_quantity_none (q : Qc) : side_of_quantity q = None → q = 0%Qc.
Proof.
  unfold side_of_quantity. repeat case_decide; try discriminate. intros _.
  apply Qcle_antisym; by apply Qcnot_lt_le.
Qed.

(** [__update_existing_position] computes the specification's rule. *)
Lemma update_existing_position_netted existing fill es fs s :
  Position.side existing = Some es →
  Position.side fill = Some fs →
  update_existing_position existing fill s = Ok (netted es fs existing fill) s.
Proof.
  intros He Hf. unfold update_existing_position, update_existing_buy_position,
    update_existing_sell_position, netted. rewrite He, Hf.
  destruct es, fs; run_monad; reflexivity.
Qed.

(** The fill of an entry that exists with a side. *)
Lemma update_positions_existing ext new_position order s portfolio existing es fs :
  portfolios_collection s !! Order.portfolio_id order = Some portfolio →
  existing_for (Position.symbol new_position) (Portfolio.positions portfolio) = Some existing →
  Position.side existing = Some es →
  Position.side new_position = Some fs →
  update_positions ext new_position order s =
  portfolio_set ext (Order.portfolio_id order)
    {| Portfolio.id := Portfolio.id portfolio;
       Portfolio.orders := without_order order (Portfolio.orders portfolio);
       Portfolio.positions :=
         replace_position (netted es fs existing new_position) (Portfolio.positions portfolio) |}
    (before_write new_position order s).
Proof.
  intros Hp Hex He Hf. unfold update_positions, before_write. run_monad.
  rewrite Hp. simpl. unfold existing_for in *. rewrite Hex.
  rewrite decide_True by (rewrite He; discriminate).
  unfold bind. rewrite (update_existing_position_netted _ _ es fs) by done.
  reflexivity.
Qed.


(** Without a portfolio document the fill raises before anything is stored. *)
Lemma update_positions_no_portfolio ext new_position order s :
  portfolios_collection s !! Order.portfolio_id order = None →
  update_positions ext new_position order s =
  Raise ValidationError (add_log (info_new_position new_position) s).
Proof. intros Hp. unfold update_positions. run_monad. by rewrite Hp. Qed.

Lemma existing_for_elem_of symbol positions existing :
  existing_for symbol positions = Some existing →
  existing ∈ positions ∧ Position.symbol existing = symbol.
Proof.
  unfold existing_for. intros H. apply head_Some_elem_of in H.
  apply list_elem_of_filter in H. tauto.
Qed.

Lemma replace_position_elem_of updated positions existing :
  existing ∈ positions →
  Position.symbol existing = Position.symbol updated →
  updated ∈ replace_position updated positions.
Proof.
  intros Hin Hsym. unfold replace_position.
  apply list_elem_of_fmap. exists existing. split; [|done].
  by rewrite decide_True.
Qed.

Lemma positions_of_insert portfolio_id portfolio s :
  positions_of portfolio_id
    (set_portfolios_collection (<[portfolio_id := portfolio]> (portfolios_collection s)) s)
  = Portfolio.positions portfolio.
Proof. unfold positions_of. simpl. by rewrite lookup_insert_eq. Qed.

Lemma portfolio_set_accepted ext portfolio_id data s :
  portfolio_set_ok ext portfolio_id data = true →
  portfolio_set ext portfolio_id data s =
  Ok tt (set_portfolios_collection (<[portfolio_id := data]> (portfolios_collection s)) s).
Proof. intros H. unfold portfolio_set. by rewrite H. Qed.

Lemma portfolio_set_refused ext portfolio_id data s :
  portfolio_set_ok ext portfolio_id data = false →
  portfolio_set ext portfolio_id data s = Raise StoreError s.
Proof. intros H. unfold portfolio_set. by rewrite H. Qed.

(** ** The netting rule *)

(** C2. When the first entry of the portfolio for the fill's symbol has a
    side, a fill whose write is accepted replaces that entry by one with the
    same symbol and instrument whose quantity and value follow the four-case
    rule: added when the sides agree, subtracted when they differ. Its side
    is then BUY when the new quantity is above 0, SELL when it is below 0,
    and none when it is 0. The entry stays in the portfolio, also when its
    quantity has become 0, whatever its value. *)
Theorem netting_four_case_rule ext new_position order s portfolio existing es fs :
  (∀ portfolio_id data, portfolio_set_ok ext portfolio_id data = true) →
  portfolios_collection s !! Order.portfolio_id order = Some portfolio →
  existing_for (Position.symbol new_position) (Portfolio.positions portfolio) = Some existing →
  Position.side existing = Some es →
  Position.side new_position = Some fs →
  ∃ s' updated,
    update_positions ext new_position order s = Ok tt s' ∧
    positions_of (Order.portfolio_id order) s' =
      replace_position updated (Portfolio.positions portfolio) ∧
    updated ∈ positions_of (Order.portfolio_id order) s' ∧
    length (positions_of (Order.portfolio_id order) s') =
      length (Portfolio.positions portfolio) ∧
    Position.symbol updated = Position.symbol existing ∧
    Position.conid updated = Position.conid existing ∧
    Position.quantity updated =
      four_case es fs (Position.quantity existing) (Position.quantity new_position) ∧
    Position.value updated =
      four_case es fs (Position.value existing) (Position.value new_position) ∧
    ((0 < Position.quantity updated)%Qc → Position.side updated = Some BUY) ∧
    ((Position.quantity updated < 0)%Qc → Position.side updated = Some SELL) ∧
    (Position.quantity updated = 0%Qc → Position.side updated = None).
Proof.
  intros Hok Hp Hex He Hf.
  rewrite (update_positions_existing _ _ _ _ _ _ _ _ Hp Hex He Hf).
  rewrite portfolio_set_accepted by apply Hok.
  eexists _, (netted es fs existing new_position). split; [reflexivity|].
  rewrite positions_of_insert. simpl.
  destruct (existing_for_elem_of _ _ _ Hex) as [Hin Hsym].
  split; [reflexivity|]. split; [by apply (replace_position_elem_of _ _ existing)|].
  split; [unfold replace_position; by rewrite length_fmap|].
  do 4 (split; [reflexivity|]).
  split; [apply side_of_quantity_pos|]. split; [apply side_of_quantity_neg|].
  intros Hq. by rewrite Hq.
Qed.

Lemma netting_four_case_rule_witness :
  ∃ s' updated,
    update_positions (friendly [abc_quote]) (abc_position (Some SELL) (dec 6 1) (dec 60 1))
      (market_order "o1" SELL (dec 6 1))
      (world_with [market_order "o1" SELL (dec 6 1)]
                  [abc_position (Some BUY) (dec 4 1) (dec 38 1)])
    = Ok tt s' ∧
    positions_of "P" s'
      = replace_position updated [abc_position (Some BUY) (dec 4 1) (dec 38 1)] ∧
    updated ∈ positions_of "P" s' ∧
    length (positions_of "P" s') = 1%nat ∧
    Position.symbol updated = "ABC" ∧
    Position.conid updated = 265598%Z ∧
    Position.quantity updated = four_case BUY SELL (dec 4 1) (dec 6 1) ∧
    Position.value updated = four_case BUY SELL (dec 38 1) (dec 60 1) ∧
    ((0 < Position.quantity updated)%Qc → Position.side updated = Some BUY) ∧
    ((Position.quantity updated < 0)%Qc → Position.side updated = Some SELL) ∧
    (Position.quantity updated = 0%Qc → Position.side updated = None).
Proof.
  apply (netting_four_case_rule (friendly [abc_quote])
           (abc_position (Some SELL) (dec 6 1) (dec 60 1))
           (market_order "o1" SELL (dec 6 1))
           (world_with [market_order "o1" SELL (dec 6 1)]
                       [abc_position (Some BUY) (dec 4 1) (dec 38 1)])
           (Portfolio.mk "P" [market_order "o1" SELL (dec 6 1)]
                         [abc_position (Some BUY) (dec 4 1) (dec 38 1)])
           (abc_position (Some BUY) (dec 4 1) (dec 38 1)) BUY SELL); reflexivity.
Defined.

(** A long position of 4 that is sold 6 flips: the entry is kept with
    quantity -2 and side SELL. *)
Example netted_below_zero_is_short :
  positions_of "P"
    (final (update_positions (friendly [abc_quote])
              (abc_position (Some SELL) (dec 6 1) (dec 60 1))
              (market_order "o1" SELL (dec 6 1))
              (world_with [market_order "o1" SELL (dec 6 1)]
                          [abc_position (Some BUY) (dec 4 1) (dec 38 1)])))
  = [abc_position (Some SELL) (dec (-2) 1) (dec (-22) 1)].
Proof. qc_values. Qed.

(** The third example of the specification: a long position of 4 bought for
    38.00 and sold for 40.00 is kept with quantity 0, side none and value
    -2.00. *)
Example netted_to_zero_is_kept :
  positions_of "P"
    (final (update_positions (friendly [abc_quote])
              (Position.mk "ABC" (dec 4 1) (Some SELL) 265598 (dec 40 1))
              (market_order "o1" SELL (dec 4 1))
              (world_with [market_order "o1" SELL (dec 4 1)]
                          [Position.mk "ABC" (dec 4 1) (Some BUY) 265598 (dec 38 1)])))
  = [Position.mk "ABC" (dec 0 1) None 265598 (dec (-2) 1)].
Proof. qc_values. Qed.

(** ** Side and sign *)

(** C1. The first fill for a symbol stores the order's side beside the
    order's (positive) quantity: a market order to SELL 10 "ABC" in a
    portfolio without positions leaves the entry (SELL, 10, 95.00), whose
    side is not the one its sign calls for. *)
Theorem first_sell_fill_side_against_sign :
  after_cycle abc_quote [market_order "o1" SELL (dec 10 1)] []
    = [abc_position (Some SELL) (dec 10 1) (dec 95 1)] ∧
  side_of_quantity (dec 10 1) = Some BUY ∧
  ¬ side_matches_quantity (abc_position (Some SELL) (dec 10 1) (dec 95 1)).
Proof.
  split; [qc_values|]. split; [reflexivity|].
  unfold side_matches_quantity. vm_compute. discriminate.
Qed.

(** The same mismatch seen from the netting side: a short entry that
    receives a further SELL fill grows in quantity and is then marked BUY. *)
Example short_entry_sold_again_becomes_buy :
  after_cycle abc_quote [market_order "o1" SELL (dec 10 1); market_order "o2" SELL (dec 5 1)] []
    = [abc_position (Some BUY) (dec 15 1) (dec 1425 10)].
Proof. qc_values. Qed.

(** Where the side is recomputed, it does follow the sign. *)
Lemma update_existing_position_side existing fill s updated s' :
  update_existing_position existing fill s = Ok updated s' →
  side_matches_quantity updated.
Proof.
  unfold update_existing_position. run_monad.
  destruct (Position.side existing) as [[]|]; simpl; intros [= <- _]; reflexivity.
Qed.

(** ** One entry per symbol *)

(** C9. Three market orders for "ABC" in one cycle (BUY 4, SELL 4, BUY 1),
    starting from a portfolio without positions: the first two net to an
    entry of quantity 0 and side none; the third finds that entry, does not
    update it, and appends a second entry for the same symbol. *)
Theorem zero_entry_gets_a_duplicate :
  after_cycle abc_quote
    [market_order "o1" BUY (dec 4 1); market_order "o2" SELL (dec 4 1);
     market_order "o3" BUY (dec 1 1)] []
  = [abc_position None (dec 0 1) (dec 2 10); abc_position (Some BUY) (dec 1 1) (dec 955 100)] ∧
  ¬ NoDup (Position.symbol <$>
             after_cycle abc_quote
               [market_order "o1" BUY (dec 4 1); market_order "o2" SELL (dec 4 1);
                market_order "o3" BUY (dec 1 1)] []).
Proof.
  split; [qc_values|].
  intros H. vm_compute in H. inversion H as [|x l Hin _]; subst.
  apply Hin. left.
Qed.

(** ** Buying and selling back *)

Lemma existing_for_replace_position updated positions existing :
  existing_for (Position.symbol updated) positions = Some existing →
  existing_for (Position.symbol updated) (replace_position updated positions) = Some updated.
Proof.
  unfold existing_for, replace_position.
  induction positions as [|p l IH]; simpl; [done|].
  destruct (decide (Position.symbol p = Position.symbol updated)) as [Heq|Hne].
  - rewrite !filter_cons_True by done. done.
  - rewrite !filter_cons_False by done. exact IH.
Qed.

Lemma replace_position_twice u1 u2 positions :
  Position.symbol u1 = Position.symbol u2 →
  replace_position u2 (replace_position u1 positions) = replace_position u2 positions.
Proof.
  intros Hsym. unfold replace_position. rewrite <- list_fmap_compose.
  apply list_fmap_ext. intros _ p _. simpl.
  destruct (decide (Position.symbol p = Position.symbol u1)) as [Heq|Hne].
  - rewrite decide_True by done. by rewrite decide_True by congruence.
  - reflexivity.
Qed.

Lemma Qcopp_pos_neg (x : Qc) : (0 < x)%Qc → (- x < 0)%Qc.
Proof.
  intros Hx. apply Qclt_minus_iff. by rewrite Qcopp_involutive, Qcplus_0_l.
Qed.

(** An entry whose side agrees with the sign of its quantity keeps that
    side when a BUY fill is netted into it, and is itself again once a SELL
    fill of the same quantity and value has been netted in after it. *)
Lemma netted_round_trip es existing buy_fill sell_fill :
  Position.side existing = Some es →
  match es with
  | BUY => (0 < Position.quantity existing)%Qc
  | SELL => (Position.quantity existing < 0)%Qc
  end →
  (0 < Position.quantity buy_fill)%Qc →
  Position.quantity sell_fill = Position.quantity buy_fill →
  Position.value sell_fill = Position.value buy_fill →
  Position.side (netted es BUY existing buy_fill) = Some es ∧
  netted es SELL (netted es BUY existing buy_fill) sell_fill = existing.
Proof.
  intros Hside Hsign HQ Hqty Hval. destruct es; unfold netted; simpl.
  - split; [apply side_of_quantity_pos; by apply Qcplus_pos_pos|].
    rewrite Hqty, Hval.
    replace (Position.quantity existing + Position.quantity buy_fill
             - Position.quantity buy_fill)%Qc with (Position.quantity existing) by ring.
    replace (Position.value existing + Position.value buy_fill
             - Position.value buy_fill)%Qc with (Position.value existing) by ring.
    rewrite (side_of_quantity_pos _ Hsign), <- Hside. by destruct existing.
  - split; [apply side_of_quantity_neg; apply Qcplus_neg_neg; [done|by apply Qcopp_pos_neg]|].
    rewrite Hqty, Hval.
    replace (Position.quantity existing - Position.quantity buy_fill
             + Position.quantity buy_fill)%Qc with (Position.quantity existing) by ring.
    replace (Position.value existing - Position.value buy_fill
             + Position.value buy_fill)%Qc with (Position.value existing) by ring.
    rewrite (side_of_quantity_neg _ Hsign), <- Hside. by destruct existing.
Qed.

(** C7, as the code has it. For an entry whose side agrees with the sign of
    its quantity, held long (BUY, quantity above 0) or short (SELL, quantity
    below 0), a BUY fill followed by a SELL fill of the same quantity and of
    the same value, both accepted by the store, gives the entry its former
    quantity, value and side back. *)
Theorem buy_then_sell_restores_signed_entry
    ext buy_fill sell_fill buy_order sell_order s portfolio existing :
  (∀ portfolio_id data, portfolio_set_ok ext portfolio_id data = true) →
  portfolios_collection s !! Order.portfolio_id buy_order = Some portfolio →
  Order.portfolio_id sell_order = Order.portfolio_id buy_order →
  existing_for (Position.symbol buy_fill) (Portfolio.positions portfolio) = Some existing →
  (Position.side existing = Some BUY ∧ (0 < Position.quantity existing)%Qc) ∨
  (Position.side existing = Some SELL ∧ (Position.quantity existing < 0)%Qc) →
  Position.side buy_fill = Some BUY →
  Position.side sell_fill = Some SELL →
  Position.symbol sell_fill = Position.symbol buy_fill →
  (0 < Position.quantity buy_fill)%Qc →
  Position.quantity sell_fill = Position.quantity buy_fill →
  Position.value sell_fill = Position.value buy_fill →
  ∃ s1 s2,
    update_positions ext buy_fill buy_order s = Ok tt s1 ∧
    update_positions ext sell_fill sell_order s1 = Ok tt s2 ∧
    existing_for (Position.symbol buy_fill) (positions_of (Order.portfolio_id buy_order) s2)
      = Some existing ∧
    positions_of (Order.portfolio_id buy_order) s2
      = replace_position existing (Portfolio.positions portfolio).
Proof.
  intros Hok Hp Hpid Hex Hsigned Hb Hs Hsym HQ Hqty Hval.
  assert (∃ es, Position.side existing = Some es ∧
                match es with
                | BUY => (0 < Position.quantity existing)%Qc
                | SELL => (Position.quantity existing < 0)%Qc
                end) as (es & Hside & Hsign).
  { destruct Hsigned as [[? ?]|[? ?]]; [by exists BUY|by exists SELL]. }
  destruct (existing_for_elem_of _ _ _ Hex) as [Hin Hexsym].
  destruct (netted_round_trip es existing buy_fill sell_fill Hside Hsign HQ Hqty Hval)
    as [Hu1side Hu2].
  set (u1 := netted es BUY existing buy_fill) in *.
  assert (Hu1sym : Position.symbol u1 = Position.symbol buy_fill) by exact Hexsym.
  eexists _, _. split; [|split].
  - rewrite (update_positions_existing _ _ _ _ _ _ _ _ Hp Hex Hside Hb).
    by rewrite portfolio_set_accepted by apply Hok.
  - erewrite (update_positions_existing _ _ _ _ _ u1 es SELL); cycle 1.
    + rewrite Hpid. simpl. apply lookup_insert_eq.
    + simpl. rewrite Hsym, <- Hu1sym. apply (existing_for_replace_position _ _ existing).
      rewrite Hu1sym. exact Hex.
    + exact Hu1side.
    + exact Hs.
    + by rewrite portfolio_set_accepted by apply Hok.
  - rewrite <- Hpid, positions_of_insert. simpl. rewrite Hu2.
    rewrite replace_position_twice by done.
    split; [|reflexivity].
    rewrite <- Hexsym. apply (existing_for_replace_position _ _ existing). by rewrite Hexsym.
Qed.

Lemma buy_then_sell_restores_signed_entry_witness :
  ∃ s1 s2,
    update_positions (friendly [abc_quote]) (abc_position (Some BUY) (dec 4 1) (dec 38 1))
      (market_order "o1" BUY (dec 4 1))
      (world_with [market_order "o1" BUY (dec 4 1); market_order "o2" SELL (dec 4 1)]
                  [abc_position (Some SELL) (dec (-3) 1) (dec (-29) 1)]) = Ok tt s1 ∧
    update_positions (friendly [abc_quote]) (abc_position (Some SELL) (dec 4 1) (dec 38 1))
      (market_order "o2" SELL (dec 4 1)) s1 = Ok tt s2 ∧
    existing_for "ABC" (positions_of "P" s2)
      = Some (abc_position (Some SELL) (dec (-3) 1) (dec (-29) 1)) ∧
    positions_of "P" s2
      = replace_position (abc_position (Some SELL) (dec (-3) 1) (dec (-29) 1))
          [abc_position (Some SELL) (dec (-3) 1) (dec (-29) 1)].
Proof.
  apply (buy_then_sell_restores_signed_entry (friendly [abc_quote])
           (abc_position (Some BUY) (dec 4 1) (dec 38 1))
           (abc_position (Some SELL) (dec 4 1) (dec 38 1))
           (market_order "o1" BUY (dec 4 1)) (market_order "o2" SELL (dec 4 1))
           (world_with [market_order "o1" BUY (dec 4 1); market_order "o2" SELL (dec 4 1)]
                       [abc_position (Some SELL) (dec (-3) 1) (dec (-29) 1)])
           (Portfolio.mk "P" [market_order "o1" BUY (dec 4 1); market_order "o2" SELL (dec 4 1)]
                         [abc_position (Some SELL) (dec (-3) 1) (dec (-29) 1)])
           (abc_position (Some SELL) (dec (-3) 1) (dec (-29) 1)));
    try reflexivity.
  right. split; [reflexivity|]. vm_compute. reflexivity.
Defined.

(** Conversely, an entry with a side that the two fills give back has a
    side that agrees with the sign of its quantity: the side stored after
    the second fill is the sign of the quantity stored with it. *)
Lemma round_trip_only_for_signed_entries es es1 existing buy_fill sell_fill :
  Position.side existing = Some es →
  netted es1 SELL (netted es BUY existing buy_fill) sell_fill = existing →
  match es with
  | BUY => (0 < Position.quantity existing)%Qc
  | SELL => (Position.quantity existing < 0)%Qc
  end.
Proof.
  intros Hside Hback.
  pose proof (f_equal Position.side Hback) as Hs.
  pose proof (f_equal Position.quantity Hback) as Hq.
  simpl in Hs, Hq. rewrite Hq, Hside in Hs. clear Hq Hback.
  unfold side_of_quantity in Hs.
  destruct (decide (Position.quantity existing < 0)%Qc);
    [|destruct (decide (0 < Position.quantity existing)%Qc)];
    by destruct es.
Qed.

(** A short entry with a negative quantity is reached by the code itself: a
    long 5 that is sold 8 is kept as (SELL, -3). *)
Example short_entry_is_reachable :
  after_cycle (abc_snapshot (dec 10 1) (dec 10 1))
    [market_order "o1" SELL (dec 8 1)]
    [abc_position (Some BUY) (dec 5 1) (dec 50 1)]
  = [abc_position (Some SELL) (dec (-3) 1) (dec (-30) 1)].
Proof. qc_values. Qed.

(** C7, as stated, fails where the side of the entry does not agree with
    the sign of its quantity, and where the two fills differ in value. An
    entry (SELL, 10, 100.00), as a first SELL fill creates it, that is
    bought 3 and sold 3 at the same price 10.00 ends at quantity 4 and value
    40.00, marked BUY. An entry without a side (none, 0, 0.20) is not
    updated at all: the two fills are appended as entries of their own. An
    entry held long (BUY, 10, 95.50) that is bought 4 at the ask 9.55 and
    sold 4 at the bid 9.50 ends at value 95.70. *)
Lemma round_trip_counterexample :
  (after_cycle (abc_snapshot (dec 10 1) (dec 10 1))
     [market_order "o1" BUY (dec 3 1); market_order "o2" SELL (dec 3 1)]
     [abc_position (Some SELL) (dec 10 1) (dec 100 1)]
   = [abc_position (Some BUY) (dec 4 1) (dec 40 1)] ∧
   dec 4 1 ≠ dec 10 1 ∧ dec 40 1 ≠ dec 100 1) ∧
  (after_cycle (abc_snapshot (dec 10 1) (dec 10 1))
     [market_order "o1" BUY (dec 3 1); market_order "o2" SELL (dec 3 1)]
     [abc_position None (dec 0 1) (dec 20 100)]
   = [abc_position None (dec 0 1) (dec 20 100);
      abc_position (Some BUY) (dec 3 1) (dec 30 1);
      abc_position (Some SELL) (dec 3 1) (dec 30 1)]) ∧
  (after_cycle abc_quote
     [market_order "o1" BUY (dec 4 1); market_order "o2" SELL (dec 4 1)]
     [abc_position (Some BUY) (dec 10 1) (dec 955 10)]
   = [abc_position (Some BUY) (dec 10 1) (dec 957 10)] ∧
   dec 957 10 ≠ dec 955 10).
Proof.
  split; [split; [qc_values|split]|split; [qc_values|split; [qc_values|]]];
    intros H; apply (f_equal this) in H; vm_compute in H; discriminate.
Qed.

(** ** Fills write once *)

(** Whatever branch a fill takes, it ends in one portfolio write that
    carries the positions and the order references together. *)
Lemma update_positions_writes_once ext new_position order s portfolio :
  portfolios_collection s !! Order.portfolio_id order = Some portfolio →
  ∃ data,
    Portfolio.orders data = without_order order (Portfolio.orders portfolio) ∧
    (Portfolio.positions data = Portfolio.positions portfolio ++ [new_position] ∨
     ∃ updated, side_matches_quantity updated ∧
                Portfolio.positions data
                  = replace_position updated (Portfolio.positions portfolio)) ∧
    update_positions ext new_position order s =
      portfolio_set ext (Order.portfolio_id order) data (before_write new_position order s).
Proof.
  intros Hp. unfold update_positions, before_write. run_monad. rewrite Hp. simpl.
  unfold existing_for.
  destruct (head _) as [existing|];
    [|eexists; split; [|split; [|reflexivity]]; [reflexivity|by left]].
  destruct (decide (Position.side existing ≠ None)) as [Hs|Hs].
  - unfold update_existing_position, bind.
    destruct (Position.side existing) as [[]|]; [| |done]; simpl;
      (eexists; split; [|split; [|reflexivity]]; [reflexivity|]); right.
    + exists (side_recomputed (update_existing_buy_position existing new_position)).
      split; reflexivity.
    + exists (side_recomputed (update_existing_sell_position existing new_position)).
      split; reflexivity.
  - eexists; split; [|split; [|reflexivity]]; [reflexivity|by left].
Qed.



Lemma update_positions_keeps_maps ext new_position order s :
  symbol_conid_map (final (update_positions ext new_position order s)) = symbol_conid_map s ∧
  symbol_price_map (final (update_positions ext new_position order s)) = symbol_price_map s.
Proof.
  destruct (portfolios_collection s !! Order.portfolio_id order) as [portfolio|] eqn:Hp.
  - destruct (update_positions_writes_once ext new_position order s portfolio Hp)
      as (data & _ & _ & ->).
    unfold portfolio_set. by destruct (portfolio_set_ok _ _ _).
  - by rewrite update_positions_no_portfolio.
Qed.

(** A completed fill retires its order. *)
Lemma update_positions_retires ext new_position order s s' :
  update_positions ext new_position order s = Ok tt s' →
  retired order s'.
Proof.
  intros H.
  destruct (portfolios_collection s !! Order.portfolio_id order) as [portfolio|] eqn:Hp.
  - destruct (update_positions_writes_once ext new_position order s portfolio Hp)
      as (data & Hrefs & _ & Heq).
    rewrite Heq in H. unfold portfolio_set in H.
    destruct (portfolio_set_ok _ _ _); [|discriminate].
    injection H as <-. split; intros o Ho.
    + simpl in Ho. apply list_elem_of_filter in Ho. tauto.
    + unfold order_refs_of in Ho. simpl in Ho. rewrite lookup_insert_eq in Ho.
      rewrite Hrefs in Ho. apply list_elem_of_filter in Ho. tauto.
  - rewrite update_positions_no_portfolio in H by done. discriminate.
Qed.

(** C5, as the code has it. For a fill on an existing portfolio, the new
    positions and the reduced order references go to the portfolio store in
    one write, and the order's document is deleted before that write: when
    the write is accepted both changes are stored; when it is refused the
    portfolio store is as before, the order is already gone from the
    pending-order store, and the error is raised to the caller. *)
Theorem fill_is_one_write_after_order_deletion ext new_position order s portfolio :
  portfolios_collection s !! Order.portfolio_id order = Some portfolio →
  ∃ data,
    Portfolio.orders data = without_order order (Portfolio.orders portfolio) ∧
    (Portfolio.positions data = Portfolio.positions portfolio ++ [new_position] ∨
     ∃ updated, side_matches_quantity updated ∧
                Portfolio.positions data
                  = replace_position updated (Portfolio.positions portfolio)) ∧
    (portfolio_set_ok ext (Order.portfolio_id order) data = true →
     ∃ s', update_positions ext new_position order s = Ok tt s' ∧
           portfolios_collection s'
             = <[Order.portfolio_id order := data]> (portfolios_collection s) ∧
           orders_collection s' = without_order order (orders_collection s)) ∧
    (portfolio_set_ok ext (Order.portfolio_id order) data = false →
     ∃ s', update_positions ext new_position order s = Raise StoreError s' ∧
           portfolios_collection s' = portfolios_collection s ∧
           orders_collection s' = without_order order (orders_collection s)).
Proof.
  intros Hp.
  destruct (update_positions_writes_once ext new_position order s portfolio Hp)
    as (data & Hrefs & Hpos & Heq).
  exists data. split; [exact Hrefs|]. split; [exact Hpos|]. rewrite Heq.
  split; intros Hok.
  - rewrite portfolio_set_accepted by done. eexists. split; [reflexivity|]. done.
  - rewrite portfolio_set_refused by done. eexists. split; [reflexivity|]. done.
Qed.

Lemma fill_is_one_write_after_order_deletion_witness :
  let order := market_order "o1" BUY (dec 10 1) in
  let fill := abc_position (Some BUY) (dec 10 1) (dec 955 10) in
  let s := world_with [order] [] in
  ∃ data,
    Portfolio.orders data = [] ∧
    (Portfolio.positions data = [fill] ∨
     ∃ updated, side_matches_quantity updated ∧
                Portfolio.positions data = replace_position updated []) ∧
    (portfolio_set_ok (refusing [abc_quote]) "P" data = true →
     ∃ s', update_positions (refusing [abc_quote]) fill order s = Ok tt s' ∧
           portfolios_collection s' = <["P" := data]> (portfolios_collection s) ∧
           orders_collection s' = []) ∧
    (portfolio_set_ok (refusing [abc_quote]) "P" data = false →
     ∃ s', update_positions (refusing [abc_quote]) fill order s = Raise StoreError s' ∧
           portfolios_collection s' = portfolios_collection s ∧
           orders_collection s' = []).
Proof.
  intros order fill s.
  apply (fill_is_one_write_after_order_deletion (refusing [abc_quote]) fill order s
           (Portfolio.mk "P" [order] [])).
  reflexivity.
Defined.

(** C5, as stated, fails: when the portfolio store refuses the write of a
    market BUY of 10 "ABC", the loop ends with the error uncaught, no
    position stored, and the order gone from the pending-order store, so
    nothing is left to retry. *)
Lemma refused_write_loses_order :
  market_order "o1" BUY (dec 10 1)
    ∈ orders_collection (world_with [market_order "o1" BUY (dec 10 1)] []) ∧
  (run [refusing [abc_quote]; friendly [abc_quote]]
       (world_with [market_order "o1" BUY (dec 10 1)] [])).1 = Uncaught StoreError ∧
  orders_collection
    (run [refusing [abc_quote]; friendly [abc_quote]]
         (world_with [market_order "o1" BUY (dec 10 1)] [])).2 = [] ∧
  positions_of "P"
    (run [refusing [abc_quote]; friendly [abc_quote]]
         (world_with [market_order "o1" BUY (dec 10 1)] [])).2 = [].
Proof.
  split; [apply list_elem_of_singleton; reflexivity|].
  split; [|split]; vm_compute; reflexivity.
Qed.

(** ** Deciding a fill *)

Lemma create_position_resolved order fill_price s conid :
  dict_get (Order.symbol order) (symbol_conid_map s) = Some conid →
  create_position order fill_price s = Ok (fill_record order conid fill_price) s.
Proof. intros H. unfold create_position. run_monad. by rewrite H. Qed.

Lemma process_market_order_fill ext order quote s conid :
  dict_get (Order.symbol order) (symbol_conid_map s) = Some conid →
  process_market_order ext order (ask quote) (bid quote) s =
  update_positions ext (fill_record order conid (crossing_price (Order.side order) quote)) order s.
Proof.
  intros H. unfold process_market_order, bind.
  destruct (Order.side order); simpl; by rewrite (create_position_resolved _ _ _ conid).
Qed.


Lemma process_limit_order_rest ext order quote s limit :
  Order.limit_price order = Some limit →
  ¬ limit_met (Order.side order) limit quote →
  process_limit_order ext order (ask quote) (bid quote) s = Ok tt s.
Proof.
  intros Hl Hmet. unfold process_limit_order, bind, limit_met in *. rewrite Hl.
  destruct (Order.side order); simpl.
  - by rewrite bool_decide_true by (by apply Qcnot_le_lt).
  - by rewrite bool_decide_true by (by apply Qcnot_le_lt).
Qed.

Lemma process_order_single_quote ext order quote s :
  symbol_price_map s !! Order.symbol order = Some quote →
  process_order_single ext order s =
  if decide (Order.order_type order = "MKT") then
    process_market_order ext order (ask quote) (bid quote) s
  else if decide (Order.order_type order = "LMT") then
    process_limit_order ext order (ask quote) (bid quote) s
  else
    process_market_order ext order (ask quote) (bid quote)
      (add_log (error_invalid_order_type (Order.order_type order)) s).
Proof.
  intros H. unfold process_order_single. run_monad. rewrite H. simpl.
  repeat case_decide; reflexivity.
Qed.



Lemma quoted_world_resolved pending positions quote :
  quotes_resolved (quoted_world pending positions quote).
Proof.
  intros symbol [q Hq]. simpl in *.
  apply lookup_singleton_Some in Hq as [<- _]. by eexists.
Qed.


(** A limit BUY of 10 at 9.60 against the ask 9.55 leaves the position
    (BUY, 10, 95.50) in the portfolio and no pending order; at the limit
    9.50 nothing changes. *)
Example limit_buy_met_and_unmet :
  after_cycle abc_quote [limit_order "o1" BUY (dec 10 1) (dec 960 100)] []
    = [abc_position (Some BUY) (dec 10 1) (dec 9550 100)] ∧
  orders_collection
    (final (cycle (friendly [abc_quote])
              (world_with [limit_order "o1" BUY (dec 10 1) (dec 960 100)] [])))
    = [] ∧
  after_cycle abc_quote [limit_order "o1" BUY (dec 10 1) (dec 950 100)] [] = [] ∧
  orders_collection
    (final (cycle (friendly [abc_quote])
              (world_with [limit_order "o1" BUY (dec 10 1) (dec 950 100)] [])))
    = [limit_order "o1" BUY (dec 10 1) (dec 950 100)].
Proof.
  split; [qc_values|]. split; [vm_compute; reflexivity|].
  split; [vm_compute; reflexivity|]. qc_values.
Qed.



(** The first example of the specification: a market BUY of 10 "ABC" at
    9.50 / 9.55 in a portfolio without positions gives the position
    (BUY, 10, 95.50) and empties the pending-order store. *)
Example first_market_buy :
  after_cycle abc_quote [market_order "o1" BUY (dec 10 1)] []
    = [abc_position (Some BUY) (dec 10 1) (dec 9550 100)] ∧
  orders_collection
    (final (cycle (friendly [abc_quote]) (world_with [market_order "o1" BUY (dec 10 1)] [])))
    = [].
Proof. split; [qc_values | vm_compute; reflexivity]. Qed.

(** ** Loops *)

(** A property kept by every iteration that returns is kept by a loop all
    of whose iterations return. *)
Lemma for_each_returns {A} (I : State → Prop) (l : list A) (body : A → M unit) :
  (∀ x s, x ∈ l → I s → ∃ s', body x s = Ok tt s' ∧ I s') →
  ∀ s, I s → ∃ s', for_each l body s = Ok tt s' ∧ I s'.
Proof.
  induction l as [|x l IH]; intros Hbody s Hs; simpl.
  - by exists s.
  - destruct (Hbody x s) as (s1 & Hx & Hs1); [left|done|].
    destruct IH with (s := s1) as (s2 & Hl & Hs2); [|done|].
    + intros y t Hy. apply Hbody. by right.
    + exists s2. unfold bind. by rewrite Hx.
Qed.

(** A property kept by every iteration, returning or raising, holds when
    the loop stops. *)
Lemma for_each_final {A} (I : State → Prop) (l : list A) (body : A → M unit) :
  (∀ x s, I s → I (final (body x s))) →
  ∀ s, I s → I (final (for_each l body s)).
Proof.
  intros Hbody. induction l as [|x l IH]; intros s Hs; simpl; [done|].
  unfold bind. specialize (Hbody x s Hs).
  destruct (body x s) as [[] s1|e s1]; simpl in *; [by apply IH|done].
Qed.

(** ** Resolving instruments *)

Lemma resolve_instruments_returns s :
  ∃ s1, resolve_instruments s = Ok tt s1 ∧ resolved_from s s1.
Proof.
  unfold resolve_instruments, update_orders, map_orders_to_conids, resolved_from. run_monad.
  destruct (decide (length (orders_collection s) = 0%nat)) as [Hn|Hn].
  - eexists. split; [reflexivity|]. by repeat split.
  - match goal with |- ∃ s1, for_each ?l ?body ?s0 = _ ∧ _ =>
      destruct (for_each_returns
                  (λ t, same_stores s t ∧ orders t = orders_collection s ∧
                        symbol_price_map t = ∅ ∧ log t = log s0) l body) with (s := s0)
        as (s1 & Hrun & Hst & Hord & Hmap & Hlog)
    end.
    + intros contract t _ (Hst & Hord & Hmap & Hlog).
      eexists. split; [reflexivity|]. by destruct Hst.
    + by repeat split.
    + exists s1. split; [exact Hrun|]. repeat split; try tauto; try apply Hst.
      rewrite Hlog. simpl. by rewrite <- app_assoc.
Qed.

Lemma cycle_after_resolution ext s s1 :
  resolve_instruments s = Ok tt s1 →
  cycle ext s = (get_market_data_snapshots ext;;; process_orders ext) s1.
Proof.
  unfold cycle, resolve_instruments, bind.
  destruct (update_orders s) as [[] sa|]; [|discriminate].
  destruct (map_orders_to_conids sa) as [[] sb|]; [|discriminate].
  by intros [= ->].
Qed.

(** ** Refreshing quotes *)

Lemma index_Some_lt x l i : index x l = Some i → (i < length l)%nat.
Proof.
  revert i. induction l as [|y l IH]; simpl; intros i; [done|].
  case_decide; [intros [= <-]; lia|].
  destruct (index x l) as [j|]; simpl; [|done].
  intros [= <-]. specialize (IH j eq_refl). lia.
Qed.

Lemma index_None x l : index x l = None ↔ x ∉ l.
Proof.
  induction l as [|y l IH]; simpl.
  - split; [intros _; apply not_elem_of_nil|done].
  - case_decide as Hy.
    + subst. split; [done|]. intros Hn. exfalso. apply Hn. left.
    + destruct (index x l) as [j|]; simpl.
      * split; [done|]. intros Hn. exfalso.
        assert (Hin : x ∉ l) by (intros Hin; apply Hn; by right).
        apply IH in Hin. discriminate.
      * split; [|done]. intros _ Hin. apply elem_of_cons in Hin as [->|Hin]; [done|].
        by apply (proj1 IH).
Qed.

Lemma dict_get_key {V} (d : list (string * V)) i k :
  dict_keys d !! i = Some k → is_Some (dict_get k d).
Proof.
  unfold dict_keys. revert i. induction d as [|[k' v'] d IH]; intros i; simpl; [done|].
  destruct i as [|i]; simpl.
  - intros [= ->]. rewrite decide_True by done. by eexists.
  - intros Hi. case_decide; [by eexists|]. by apply (IH i).
Qed.

(** A snapshot whose identifier is not a value of the symbol map raises. *)
Lemma record_snapshot_unresolved snapshot s :
  conidEx snapshot ∉ dict_values (symbol_conid_map s) →
  record_snapshot snapshot s = Raise ValueError s.
Proof.
  intros Hn. apply index_None in Hn. unfold record_snapshot. run_monad. by rewrite Hn.
Qed.

(** A snapshot whose identifier is one returns; it leaves everything but
    the price map alone, and enters there at most a resolved symbol. *)
Lemma record_snapshot_resolved snapshot s :
  conidEx snapshot ∈ dict_values (symbol_conid_map s) →
  ∃ s', record_snapshot snapshot s = Ok tt s' ∧
        symbol_conid_map s' = symbol_conid_map s ∧
        same_stores s s' ∧ orders s' = orders s ∧ log s' = log s ∧
        (quotes_resolved s → quotes_resolved s') ∧
        (fields snapshot !! "84" = None ∨ fields snapshot !! "86" = None → s' = s).
Proof.
  intros Hin. unfold record_snapshot. run_monad.
  destruct (index (conidEx snapshot) (dict_values (symbol_conid_map s))) as [i|] eqn:Hi;
    [|by apply index_None in Hi].
  simpl. apply index_Some_lt in Hi.
  destruct (dict_keys (symbol_conid_map s) !! i) as [symbol|] eqn:Hk.
  2:{ apply lookup_ge_None in Hk. unfold dict_keys in Hk. unfold dict_values in Hi.
      rewrite length_fmap in Hk. rewrite length_fmap in Hi. lia. }
  simpl.
  destruct (fields snapshot !! "84") as [b|] eqn:Hb;
    destruct (fields snapshot !! "86") as [a|] eqn:Ha; simpl;
    try (exists s; repeat split; auto; fail).
  - eexists. split; [reflexivity|]. repeat split; simpl.
    + intros Hres k [q Hq]. simpl in *.
      destruct (decide (symbol = k)) as [<-|Hne].
      * by apply (dict_get_key _ i).
      * rewrite lookup_insert_ne in Hq by done. apply Hres. by eexists.
    + intros [|]; discriminate.
Qed.

Lemma record_snapshot_outcome snapshot s :
  (∃ s', record_snapshot snapshot s = Ok tt s' ∧
         symbol_conid_map s' = symbol_conid_map s ∧
         same_stores s s' ∧ orders s' = orders s ∧ log s' = log s ∧
         (quotes_resolved s → quotes_resolved s')) ∨
  record_snapshot snapshot s = Raise ValueError s.
Proof.
  destruct (decide (conidEx snapshot ∈ dict_values (symbol_conid_map s))) as [Hin|Hn].
  - left. destruct (record_snapshot_resolved snapshot s Hin) as (s' & ? & ? & ? & ? & ? & ? & _).
    by exists s'.
  - right. by apply record_snapshot_unresolved.
Qed.

(** The loop over the snapshots returns when every identifier is known. *)
Lemma record_snapshots_resolved snapshots s :
  (∀ snapshot, snapshot ∈ snapshots →
               conidEx snapshot ∈ dict_values (symbol_conid_map s)) →
  quotes_resolved s →
  ∃ s', for_each snapshots record_snapshot s = Ok tt s' ∧
        symbol_conid_map s' = symbol_conid_map s ∧
        same_stores s s' ∧ orders s' = orders s ∧ log s' = log s ∧ quotes_resolved s'.
Proof.
  intros Hall Hres.
  destruct (for_each_returns
              (λ t, symbol_conid_map t = symbol_conid_map s ∧ same_stores s t ∧
                    orders t = orders s ∧ log t = log s ∧ quotes_resolved t)
              snapshots record_snapshot) with (s := s) as (s' & Hrun & H).
  - intros snapshot t Hin (Hm & [Ho Hp] & Hord & Hlog & Hq).
    destruct (record_snapshot_resolved snapshot t) as (t' & Ht & Hm' & [Ho' Hp'] & ? & ? & Hq' & _).
    { rewrite Hm. by apply Hall. }
    exists t'. split; [exact Ht|]. repeat split; try congruence. by apply Hq'.
  - by repeat split.
  - by exists s'.
Qed.

(** The loop over the snapshots raises at the first unknown identifier. *)
Lemma record_snapshots_unresolved snapshots snapshot s :
  snapshot ∈ snapshots →
  conidEx snapshot ∉ dict_values (symbol_conid_map s) →
  ∃ s', for_each snapshots record_snapshot s = Raise ValueError s' ∧
        same_stores s s' ∧ log s' = log s.
Proof.
  revert s. induction snapshots as [|x l IH]; intros s Hin Hn.
  - by apply elem_of_nil in Hin.
  - simpl. unfold bind.
    destruct (record_snapshot_outcome x s) as [(s1 & Hx & Hm & [Ho Hp] & _ & Hlog & _)|Hx];
      rewrite Hx; [|by exists s].
    apply elem_of_cons in Hin as [->|Hin].
    + rewrite record_snapshot_unresolved in Hx by done. discriminate.
    + destruct (IH s1) as (s' & Hs' & [Ho' Hp'] & Hlog'); [done|by rewrite Hm|].
      exists s'. split; [exact Hs'|]. split; [split|]; congruence.
Qed.

Lemma empty_prices_resolved s : symbol_price_map s = ∅ → quotes_resolved s.
Proof. intros H symbol [q Hq]. rewrite H in Hq. by rewrite lookup_empty in Hq. Qed.

(** The quote refresh, whatever the quote source does, never leaves a
    quoted symbol without an instrument identifier. *)
Lemma get_market_data_snapshots_resolved ext s :
  quotes_resolved s →
  quotes_resolved (final (get_market_data_snapshots ext s)).
Proof.
  intros Hres. unfold get_market_data_snapshots. run_monad.
  case_decide; [done|].
  destruct (market_data_snapshot ext _ _) as [snapshots|]; [|done].
  match goal with |- quotes_resolved (final (for_each _ _ ?s0)) =>
    apply (for_each_final
             (λ t, quotes_resolved t))
  end; [|done].
  intros snapshot t Ht.
  destruct (record_snapshot_outcome snapshot t) as [(t' & -> & _ & _ & _ & _ & Hq)| ->]; auto.
Qed.

Lemma refresh_quotes_resolved ext s s' :
  (resolve_instruments;;; get_market_data_snapshots ext) s = Ok tt s' →
  quotes_resolved s'.
Proof.
  unfold bind at 1.
  destruct (resolve_instruments_returns s) as (s1 & -> & _ & _ & Hempty & _ & _).
  intros H. pose proof (get_market_data_snapshots_resolved ext s1 (empty_prices_resolved _ Hempty)) as Hq.
  by rewrite H in Hq.
Qed.

(** ** Processing one order *)

Lemma process_order_skip ext order s :
  symbol_price_map s !! Order.symbol order = None →
  process_order ext order s =
  Ok tt (add_log info_skipping_order
           (add_log (info_processing_order (Order.symbol order) (symbol_price_map s)) s)).
Proof.
  intros H. unfold process_order. run_monad. by rewrite decide_True.
Qed.

Lemma process_order_quoted ext order s quote :
  symbol_price_map s !! Order.symbol order = Some quote →
  process_order ext order s =
  process_order_single ext order
    (add_log (info_processing_order (Order.symbol order) (symbol_price_map s)) s).
Proof.
  intros H. unfold process_order. run_monad.
  by rewrite decide_False by (rewrite H; discriminate).
Qed.

Lemma process_market_order_retires ext order a b s s' :
  process_market_order ext order a b s = Ok tt s' → retired order s'.
Proof.
  unfold process_market_order, create_position. run_monad.
  destruct (dict_get _ _); simpl; [|discriminate].
  apply update_positions_retires.
Qed.

Lemma process_market_order_keeps_maps ext order a b s :
  symbol_conid_map (final (process_market_order ext order a b s)) = symbol_conid_map s ∧
  symbol_price_map (final (process_market_order ext order a b s)) = symbol_price_map s.
Proof.
  unfold process_market_order, create_position. run_monad.
  destruct (dict_get _ _); simpl; [|done].
  apply update_positions_keeps_maps.
Qed.

Lemma process_limit_order_keeps_maps ext order a b s :
  symbol_conid_map (final (process_limit_order ext order a b s)) = symbol_conid_map s ∧
  symbol_price_map (final (process_limit_order ext order a b s)) = symbol_price_map s.
Proof.
  unfold process_limit_order, create_position, compare_with_limit. run_monad.
  destruct (Order.side order), (Order.limit_price order) as [l|]; simpl; try done;
    repeat (case_bool_decide; simpl; try done);
    (destruct (dict_get _ _); simpl; [|done]); apply update_positions_keeps_maps.
Qed.

(** Processing an order changes neither the symbol map nor the quotes, so
    what the refresh established holds for every order of the cycle. *)
Lemma process_order_keeps_maps ext order s :
  symbol_conid_map (final (process_order ext order s)) = symbol_conid_map s ∧
  symbol_price_map (final (process_order ext order s)) = symbol_price_map s.
Proof.
  destruct (symbol_price_map s !! Order.symbol order) as [quote|] eqn:Hq.
  - rewrite (process_order_quoted _ _ _ quote) by done.
    rewrite (process_order_single_quote _ _ quote) by done.
    repeat case_decide.
    + apply (process_market_order_keeps_maps ext order (ask quote) (bid quote)
               (add_log _ s)).
    + apply (process_limit_order_keeps_maps ext order (ask quote) (bid quote)
               (add_log _ s)).
    + apply (process_market_order_keeps_maps ext order (ask quote) (bid quote)
               (add_log _ (add_log _ s))).
  - by rewrite process_order_skip.
Qed.

Lemma process_limit_order_retires ext order quote limit s s' :
  Order.limit_price order = Some limit →
  limit_met (Order.side order) limit quote →
  process_limit_order ext order (ask quote) (bid quote) s = Ok tt s' →
  retired order s'.
Proof.
  intros Hl Hmet. unfold process_limit_order, create_position, limit_met in *.
  run_monad. rewrite Hl.
  destruct (Order.side order); simpl;
    rewrite bool_decide_false by (by apply Qcle_not_lt);
    (destruct (dict_get _ _); simpl; [|discriminate]);
    apply update_positions_retires.
Qed.

(** C6. One pass of the loop of [__process_orders] over an order. When the
    order is due (its symbol is quoted and, for a LIMIT order, the limit is
    met) and the pass returns, no pending document and no reference of its
    portfolio carries the order's identifier any more. When the symbol has
    no quote, or the order is a LIMIT order whose limit is not met, the pass
    returns and the orders and portfolios collections, hence the order, its
    portfolio and every position, are what they were. *)
Theorem processed_order_retired_or_untouched ext order s :
  (∀ quote s',
     symbol_price_map s !! Order.symbol order = Some quote →
     Order.order_type order ≠ "LMT" →
     process_order ext order s = Ok tt s' →
     retired order s') ∧
  (∀ quote limit s',
     symbol_price_map s !! Order.symbol order = Some quote →
     Order.order_type order = "LMT" →
     Order.limit_price order = Some limit →
     limit_met (Order.side order) limit quote →
     process_order ext order s = Ok tt s' →
     retired order s') ∧
  (symbol_price_map s !! Order.symbol order = None →
   ∃ s', process_order ext order s = Ok tt s' ∧ same_stores s s') ∧
  (∀ quote limit,
     symbol_price_map s !! Order.symbol order = Some quote →
     Order.order_type order = "LMT" →
     Order.limit_price order = Some limit →
     ¬ limit_met (Order.side order) limit quote →
     ∃ s', process_order ext order s = Ok tt s' ∧ same_stores s s').
Proof.
  split; [|split; [|split]].
  - intros quote s' Hq Ht. rewrite (process_order_quoted _ _ _ quote) by done.
    rewrite (process_order_single_quote _ _ quote) by done.
    rewrite (decide_False (P := Order.order_type order = "LMT")) by done.
    case_decide; apply process_market_order_retires.
  - intros quote limit s' Hq Ht Hl Hmet. rewrite (process_order_quoted _ _ _ quote) by done.
    rewrite (process_order_single_quote _ _ quote) by done.
    rewrite decide_False by (rewrite Ht; discriminate). rewrite decide_True by done.
    by apply (process_limit_order_retires _ _ _ limit).
  - intros Hq. rewrite process_order_skip by done. eexists. split; [reflexivity|]. done.
  - intros quote limit Hq Ht Hl Hmet. rewrite (process_order_quoted _ _ _ quote) by done.
    rewrite (process_order_single_quote _ _ quote) by done.
    rewrite decide_False by (rewrite Ht; discriminate). rewrite decide_True by done.
    rewrite (process_limit_order_rest _ _ _ _ limit) by done.
    eexists. split; [reflexivity|]. done.
Qed.

(** The theorem at work: a market BUY that is due is filled and retired; a
    limit BUY at 9.00 against an ask of 9.55 is left in place. *)
Lemma processed_order_retired_or_untouched_witness :
  (∃ s', process_order (friendly [abc_quote]) (market_order "o1" BUY (dec 10 1))
           (quoted_world [market_order "o1" BUY (dec 10 1)] [] abc_bid_ask) = Ok tt s' ∧
         retired (market_order "o1" BUY (dec 10 1)) s') ∧
  (∃ s', process_order (friendly [abc_quote]) (limit_order "o2" BUY (dec 10 1) (dec 9 1))
           (quoted_world [limit_order "o2" BUY (dec 10 1) (dec 9 1)] [] abc_bid_ask) = Ok tt s' ∧
         same_stores (quoted_world [limit_order "o2" BUY (dec 10 1) (dec 9 1)] [] abc_bid_ask) s').
Proof.
  split.
  - eexists. split; [vm_compute; reflexivity|].
    eapply (proj1 (processed_order_retired_or_untouched (friendly [abc_quote])
                     (market_order "o1" BUY (dec 10 1))
                     (quoted_world [market_order "o1" BUY (dec 10 1)] [] abc_bid_ask))
              abc_bid_ask);
      [reflexivity | discriminate | vm_compute; reflexivity].
  - apply (proj2 (proj2 (proj2 (processed_order_retired_or_untouched (friendly [abc_quote])
                     (limit_order "o2" BUY (dec 10 1) (dec 9 1))
                     (quoted_world [limit_order "o2" BUY (dec 10 1) (dec 9 1)] [] abc_bid_ask))))
             abc_bid_ask (dec 9 1));
      [reflexivity | reflexivity | reflexivity | vm_compute; intros H; apply H; reflexivity].
Defined.

Lemma process_order_keeps_resolved ext order s :
  quotes_resolved s → quotes_resolved (final (process_order ext order s)).
Proof.
  intros Hres symbol. destruct (process_order_keeps_maps ext order s) as [-> ->].
  apply Hres.
Qed.

(** ** A cycle without quotes *)

Lemma get_market_data_snapshots_failed ext s :
  (∀ conids fields, market_data_snapshot ext conids fields = None) →
  ∃ s', get_market_data_snapshots ext s = Ok tt s' ∧
        same_stores s s' ∧ orders s' = orders s ∧
        symbol_price_map s' = symbol_price_map s ∧
        symbol_conid_map s' = symbol_conid_map s ∧
        (dict_values (symbol_conid_map s) ≠ [] → error_getting_snapshots ∈ log s').
Proof.
  intros Hfail. unfold get_market_data_snapshots. run_monad.
  case_decide as Hc.
  - exists s. by repeat split.
  - rewrite Hfail. simpl. eexists. split; [reflexivity|]. repeat split.
    intros _. simpl. apply elem_of_app. right. left.
Qed.

Lemma process_orders_without_quotes ext s :
  symbol_price_map s = ∅ →
  ∃ s', process_orders ext s = Ok tt s' ∧ same_stores s s' ∧
        symbol_price_map s' = ∅ ∧ symbol_conid_map s' = symbol_conid_map s ∧
        (∀ r, r ∈ log s → r ∈ log s').
Proof.
  intros Hempty. unfold process_orders. run_monad.
  match goal with |- ∃ s', for_each ?l ?body ?s0 = _ ∧ _ =>
    destruct (for_each_returns
                (λ t, same_stores s t ∧ symbol_price_map t = ∅ ∧
                      symbol_conid_map t = symbol_conid_map s ∧
                      (∀ r, r ∈ log s → r ∈ log t)) l body) with (s := s0)
      as (s' & Hrun & H)
  end.
  - intros order t _ (Hst & Hmap & Hc & Hlog).
    rewrite process_order_skip by (by rewrite Hmap, lookup_empty).
    eexists. split; [reflexivity|]. destruct Hst. repeat split; try done.
    intros r Hr. simpl. apply elem_of_app. left. apply elem_of_app. left. by apply Hlog.
  - repeat split; try done. intros r Hr. simpl. apply elem_of_app. by left.
  - by exists s'.
Qed.

(** C8. When every call to the quote source raises, the cycle still
    returns: the quote cache is empty at its end, the orders and portfolios
    collections are untouched (every order stays pending), and the error
    is in the log whenever a call was made; so [run] is not ended by it.
    Whatever the cycle, an order whose symbol has no quote is passed over
    with only log records written. A snapshot that lacks the bid or the ask
    never changes the quote cache, and changes nothing at all when its
    identifier is known. *)
Theorem quote_failure_defers_orders ext s :
  (∀ conids fields, market_data_snapshot ext conids fields = None) →
  (∃ s', cycle ext s = Ok tt s' ∧
         symbol_price_map s' = ∅ ∧
         same_stores s s' ∧
         (dict_values (symbol_conid_map s') ≠ [] → error_getting_snapshots ∈ log s') ∧
         (∀ e, (run [ext] s).1 ≠ Uncaught e)) ∧
  (∀ ext' order t,
     symbol_price_map t !! Order.symbol order = None →
     ∃ t', process_order ext' order t = Ok tt t' ∧ same_stores t t' ∧
           info_skipping_order ∈ log t') ∧
  (∀ snapshot t,
     fields snapshot !! "84" = None ∨ fields snapshot !! "86" = None →
     symbol_price_map (final (record_snapshot snapshot t)) = symbol_price_map t ∧
     (conidEx snapshot ∈ dict_values (symbol_conid_map t) →
      record_snapshot snapshot t = Ok tt t)).
Proof.
  intros Hfail. split; [|split].
  - destruct (resolve_instruments_returns s) as (s1 & Hr & [Ho1 Hp1] & _ & Hempty & _ & _).
    destruct (get_market_data_snapshots_failed ext s1 Hfail)
      as (s2 & Hg & [Ho2 Hp2] & _ & Hm2 & Hc2 & Hlog).
    destruct (process_orders_without_quotes ext s2)
      as (s3 & Hpo & [Ho3 Hp3] & Hm3 & Hc3 & Hlog3); [congruence|].
    assert (Hcycle : cycle ext s = Ok tt s3).
    { rewrite (cycle_after_resolution _ _ s1) by done. unfold bind. by rewrite Hg. }
    exists s3. split; [exact Hcycle|]. split; [exact Hm3|].
    split; [split; congruence|]. split.
    + intros Hne. rewrite Hc3, Hc2 in Hne. by apply Hlog3, Hlog.
    + intros e. unfold run. simpl. rewrite Hcycle. simpl.
      by destruct (keyboard_interrupt ext).
  - intros ext' order t Hq. rewrite process_order_skip by done.
    eexists. split; [reflexivity|]. split; [done|].
    simpl. apply elem_of_app. right. left.
  - intros snapshot t Hmiss. split.
    + destruct (decide (conidEx snapshot ∈ dict_values (symbol_conid_map t))) as [Hin|Hn].
      * destruct (record_snapshot_resolved snapshot t Hin) as (t' & -> & _ & _ & _ & _ & _ & Hsame).
        simpl. by rewrite (Hsame Hmiss).
      * by rewrite record_snapshot_unresolved.
    + intros Hin.
      destruct (record_snapshot_resolved snapshot t Hin) as (t' & -> & _ & _ & _ & _ & _ & Hsame).
      by rewrite (Hsame Hmiss).
Qed.

Lemma quote_failure_defers_orders_witness :
  ∃ s', cycle unreachable (world_with [market_order "o1" BUY (dec 10 1)] []) = Ok tt s' ∧
        symbol_price_map s' = ∅ ∧
        same_stores (world_with [market_order "o1" BUY (dec 10 1)] []) s' ∧
        (dict_values (symbol_conid_map s') ≠ [] → error_getting_snapshots ∈ log s') ∧
        (∀ e, (run [unreachable] (world_with [market_order "o1" BUY (dec 10 1)] [])).1
              ≠ Uncaught e).
Proof.
  apply (proj1 (quote_failure_defers_orders unreachable
                  (world_with [market_order "o1" BUY (dec 10 1)] [])
                  (λ _ _, eq_refl))).
Defined.

(** The cycle of the witness in full: the order is still pending, no
    position exists, and the log holds the error. *)
Example unreachable_quote_source :
  orders_collection (final (cycle unreachable (world_with [market_order "o1" BUY (dec 10 1)] [])))
    = [market_order "o1" BUY (dec 10 1)] ∧
  after_cycle abc_quote [] [] = [] ∧
  log (final (cycle unreachable (world_with [market_order "o1" BUY (dec 10 1)] [])))
    = [info_num_orders 1; info_mapping_symbols; info_getting_snapshots [265598%Z];
       error_getting_snapshots; info_processing_orders;
       info_processing_order "ABC" ∅; info_skipping_order].
Proof. repeat split; vm_compute; reflexivity. Qed.

(** ** An instrument the resolver did not produce *)

(** C10. When the quote source answers with a snapshot whose identifier is
    not a value of this cycle's symbol map, the loop over the answer raises
    [ValueError] outside the [try]; [run] catches only [KeyboardInterrupt],
    so the order-manager loop ends there, whatever cycles were to follow.
    Nothing is written to the log about it, and the collections are as they
    were. *)
Theorem unknown_instrument_ends_the_loop ext world s snapshots snapshot :
  let conids := dict_values (symbol_conid_map (final (resolve_instruments s))) in
  conids ≠ [] →
  market_data_snapshot ext conids FIELDS = Some snapshots →
  snapshot ∈ snapshots →
  conidEx snapshot ∉ conids →
  ∃ s', run (ext :: world) s = (Uncaught ValueError, s') ∧
        same_stores s s' ∧
        log s' = log s ++ [info_num_orders (length (orders_collection s));
                           info_mapping_symbols; info_getting_snapshots conids].
Proof.
  intros conids Hne Hsnap Hin Hunknown. subst conids.
  destruct (resolve_instruments_returns s)
    as (s1 & Hr & [Ho1 Hp1] & _ & _ & Hlog1 & Hnone).
  rewrite Hr in *. simpl in *.
  destruct (decide (length (orders_collection s) = 0%nat)) as [Hz|Hz];
    [by rewrite (Hnone Hz) in Hne|].
  assert (Hget : ∃ s', get_market_data_snapshots ext s1 = Raise ValueError s' ∧
                       same_stores s1 s' ∧
                       log s' = log s1 ++ [info_getting_snapshots
                                             (dict_values (symbol_conid_map s1))]).
  { unfold get_market_data_snapshots. run_monad.
    rewrite decide_False by done. rewrite Hsnap.
    match goal with |- ∃ s', for_each _ _ ?s0 = _ ∧ _ =>
      destruct (record_snapshots_unresolved snapshots snapshot s0 Hin Hunknown)
        as (s' & Hs' & Hst & Hlog)
    end.
    exists s'. split; [exact Hs'|]. split; [exact Hst|exact Hlog]. }
  destruct Hget as (s' & Hget & [Ho' Hp'] & Hlog').
  exists s'. split; [|split; [split; congruence|]].
  - unfold run. simpl. rewrite (cycle_after_resolution _ _ s1) by done.
    unfold bind. by rewrite Hget.
  - rewrite Hlog', Hlog1. by rewrite <- app_assoc.
Qed.

(** Such an answer exists: the quote source returns instrument 999 when
    only 265598 was asked for. *)
Lemma unknown_instrument_ends_the_loop_witness :
  ∃ s', run [friendly [{| conidEx := 999; fields := ∅ |}]; friendly [abc_quote]]
            (world_with [market_order "o1" BUY (dec 10 1)] [])
        = (Uncaught ValueError, s') ∧
        same_stores (world_with [market_order "o1" BUY (dec 10 1)] []) s' ∧
        log s' = [info_num_orders 1; info_mapping_symbols; info_getting_snapshots [265598%Z]].
Proof.
  apply (unknown_instrument_ends_the_loop
           (friendly [{| conidEx := 999; fields := ∅ |}]) [friendly [abc_quote]]
           (world_with [market_order "o1" BUY (dec 10 1)] [])
           [{| conidEx := 999; fields := ∅ |}] {| conidEx := 999; fields := ∅ |}).
  - discriminate.
  - reflexivity.
  - left.
  - vm_compute. intros H. apply list_elem_of_singleton in H. discriminate.
Defined.

(** ** What a cycle leaves alone *)

Section Steady.
Context (R : State → State → Prop) `{!PreOrder R}.

Lemma steady_ret {A} (a : A) : steady R (ret a).
Proof. intros s. reflexivity. Qed.

Lemma steady_raise {A} (e : exn) : steady R (raise (A := A) e).
Proof. intros s. reflexivity. Qed.

Lemma steady_get : steady R get.
Proof. intros s. reflexivity. Qed.

Lemma steady_lift {A} (e : exn) (o : option A) : steady R (lift e o).
Proof. destruct o; [apply steady_ret|apply steady_raise]. Qed.

Lemma steady_modify (f : State → State) : (∀ s, R s (f s)) → steady R (modify f).
Proof. intros H s. apply H. Qed.

Lemma steady_bind {A B} (m : M A) (k : A → M B) :
  steady R m → (∀ a, steady R (k a)) → steady R (bind m k).
Proof.
  intros Hm Hk s. unfold bind. specialize (Hm s).
  destruct (m s) as [a s1|e s1]; simpl in *; [|done].
  trans s1; [exact Hm|apply Hk].
Qed.

Lemma steady_for_each {A} (l : list A) (body : A → M unit) :
  (∀ x, steady R (body x)) → steady R (for_each l body).
Proof.
  intros Hbody. induction l as [|x l IH]; simpl; [apply steady_ret|].
  apply steady_bind; [apply Hbody|by intros _].
Qed.

End Steady.

Ltac steady_step :=
  lazymatch goal with
  | |- steady _ (bind _ _) => apply steady_bind; [apply _| |intros ?]
  | |- steady _ (ret _) => apply steady_ret; apply _
  | |- steady _ (raise _) => apply steady_raise; apply _
  | |- steady _ get => apply steady_get; apply _
  | |- steady _ (lift _ _) => apply steady_lift; apply _
  | |- steady _ (for_each _ _) => apply steady_for_each; [apply _|intros ?]
  | |- steady _ (modify _) => apply steady_modify; intros ?
  | |- steady _ (if ?c then _ else _) => destruct c
  | |- steady _ (match ?x with _ => _ end) => destruct x
  end.

Ltac steady_methods :=
  unfold cycle, update_orders, map_orders_to_conids, get_market_data_snapshots,
    record_snapshot, process_orders, process_order, process_order_single,
    process_market_order, process_limit_order, compare_with_limit, create_position,
    update_positions, update_existing_position, remove_order, portfolio_set,
    logging_info, logging_error.

#[local] Instance no_cancellation_preorder : PreOrder no_cancellation.
Proof.
  split; [by intros s|]. intros s1 s2 s3. unfold no_cancellation. congruence.
Qed.

#[local] Instance orders_only_leave_preorder : PreOrder orders_only_leave.
Proof.
  split; [by intros s|]. intros s1 s2 s3 [H1 E1] [H2 E2].
  split; [by trans (orders_collection s2)|congruence].
Qed.

#[local] Instance portfolios_outside_preorder touched : PreOrder (portfolios_outside touched).
Proof.
  split; [by intros s pid|]. intros s1 s2 s3 H1 H2 pid Hpid.
  rewrite H2 by done. by apply H1.
Qed.

Lemma cancellations_app l1 l2 :
  cancellations (l1 ++ l2) = (cancellations l1 + cancellations l2)%nat.
Proof. induction l1 as [|[] l1 IH]; simpl; lia. Qed.

(** No method called in a cycle cancels the subscriptions. *)
Lemma cycle_no_cancellation ext : steady no_cancellation (cycle ext).
Proof.
  steady_methods. repeat steady_step;
    unfold no_cancellation; simpl; rewrite ?cancellations_app; simpl; lia.
Qed.

(** A cycle never adds or alters a pending order and never writes to the
    contracts collection: whether it returns or raises, the orders
    collection it leaves is a sublist of the one it found. *)
Theorem cycle_orders_only_leave ext s :
  orders_collection (final (cycle ext s)) `sublist_of` orders_collection s ∧
  contracts_collection (final (cycle ext s)) = contracts_collection s.
Proof.
  revert s. change (steady orders_only_leave (cycle ext)).
  steady_methods. repeat steady_step; split; simpl; try done; apply sublist_filter.
Qed.

Lemma steady_for_each_elem_of (R : State → State → Prop) `{!PreOrder R}
    {A} (l : list A) (body : A → M unit) :
  (∀ x, x ∈ l → steady R (body x)) → steady R (for_each l body).
Proof.
  induction l as [|x l IH]; intros Hbody; simpl; [apply steady_ret; apply _|].
  apply steady_bind; [apply _|apply Hbody; left|intros _].
  apply IH. intros y Hy. apply Hbody. by right.
Qed.

Lemma process_order_portfolios_outside ext touched order :
  Order.portfolio_id order ∈ touched →
  steady (portfolios_outside touched) (process_order ext order).
Proof.
  intros Hin. steady_methods. repeat steady_step; intros pid Hpid; simpl; try done;
    apply lookup_insert_ne; intros Heq; apply Hpid; by rewrite <- Heq.
Qed.

Lemma get_market_data_snapshots_portfolios_outside ext touched :
  steady (portfolios_outside touched) (get_market_data_snapshots ext).
Proof. steady_methods. repeat steady_step; intros pid Hpid; done. Qed.

#[local] Instance orders_kept_preorder : PreOrder orders_kept.
Proof. split; [by intros s|]. intros s1 s2 s3. unfold orders_kept. congruence. Qed.

Lemma get_market_data_snapshots_orders_kept ext :
  steady orders_kept (get_market_data_snapshots ext).
Proof. steady_methods. repeat steady_step; done. Qed.

(** A cycle changes no portfolio but those of the orders that were pending
    when it started, whether it returns or raises. *)
Theorem cycle_touches_only_pending_portfolios ext s portfolio_id :
  portfolio_id ∉ (Order.portfolio_id <$> orders_collection s) →
  portfolios_collection (final (cycle ext s)) !! portfolio_id
    = portfolios_collection s !! portfolio_id.
Proof.
  intros Hout.
  destruct (resolve_instruments_returns s) as (s1 & Hr & [_ Hp1] & Hord & _).
  rewrite (cycle_after_resolution _ _ s1) by done. rewrite <- Hp1.
  set (touched := Order.portfolio_id <$> orders_collection s) in *.
  pose proof (get_market_data_snapshots_portfolios_outside ext touched s1) as Hq.
  pose proof (get_market_data_snapshots_orders_kept ext s1) as Hk.
  unfold bind. destruct (get_market_data_snapshots ext s1) as [[] s2|e s2]; simpl in *;
    [|by apply Hq].
  rewrite <- (Hq portfolio_id Hout).
  unfold process_orders, logging_info, bind, modify, get.
  refine (steady_for_each_elem_of (portfolios_outside touched) _ _ _
            (add_log info_processing_orders s2) portfolio_id Hout).
  intros order Horder. apply process_order_portfolios_outside.
  simpl in Horder. rewrite Hk, Hord in Horder.
  unfold touched. by apply list_elem_of_fmap_2.
Qed.

Lemma cycle_touches_only_pending_portfolios_witness :
  portfolios_collection
    (final (cycle (friendly [abc_quote]) (world_with [market_order "o1" BUY (dec 10 1)] [])))
    !! "Q"
  = portfolios_collection (world_with [market_order "o1" BUY (dec 10 1)] []) !! "Q".
Proof.
  apply (cycle_touches_only_pending_portfolios (friendly [abc_quote])
           (world_with [market_order "o1" BUY (dec 10 1)] []) "Q").
  simpl. intros H. apply list_elem_of_singleton in H. discriminate.
Defined.

(** ** The loop of [run] *)

Lemma run_loop_looping world n s s' :
  (n < NUM_REQUESTS_BEFORE_CANCELLING_EXISTING_SUBS)%nat →
  run_loop world n s = (Looping, s') →
  cancellations (log s')
    = (cancellations (log s)
       + (n + length world) / NUM_REQUESTS_BEFORE_CANCELLING_EXISTING_SUBS)%nat.
Proof.
  unfold NUM_REQUESTS_BEFORE_CANCELLING_EXISTING_SUBS.
  revert n s. induction world as [|ext world IH]; intros n s Hn; cbn [run_loop length].
  - intros [= <-]. rewrite Nat.add_0_r, Nat.div_small by done. lia.
  - pose proof (cycle_no_cancellation ext s) as Hc. unfold no_cancellation in Hc.
    destruct (cycle ext s) as [[] s1|e s1]; cbn [final] in Hc; [|discriminate].
    unfold NUM_REQUESTS_BEFORE_CANCELLING_EXISTING_SUBS.
    destruct (decide (S n = 10%nat)) as [Heq|Hne].
    + destruct (keyboard_interrupt ext); [discriminate|].
      intros Hrun. apply IH in Hrun; [|lia]. rewrite Hrun.
      unfold cancel_market_data_subs, logging_info, modify, add_log. cbn [final log].
      rewrite cancellations_app. cbn [cancellations]. rewrite Hc.
      replace (n + S (length world))%nat with (1 * 10 + length world)%nat by lia.
      rewrite Nat.div_add_l by done. rewrite Nat.add_0_l. lia.
    + destruct (keyboard_interrupt ext); [discriminate|].
      intros Hrun. apply IH in Hrun; [|lia]. rewrite Hrun, Hc.
      by replace (n + S (length world))%nat with (S n + length world)%nat by lia.
Qed.

(** As long as [run] keeps looping it cancels the market data subscriptions
    once every ten cycles and at no other time: after n cycles none of which
    raised or was interrupted, the log holds n div 10 more cancellations
    than before. *)
Theorem run_cancels_every_tenth_cycle world s s' :
  run world s = (Looping, s') →
  cancellations (log s') = (cancellations (log s) + length world / 10)%nat.
Proof.
  intros Hrun. apply run_loop_looping in Hrun; [exact Hrun|].
  unfold NUM_REQUESTS_BEFORE_CANCELLING_EXISTING_SUBS. lia.
Qed.

Lemma run_cancels_every_tenth_cycle_witness :
  cancellations
    (log (run (replicate 25 (friendly [abc_quote]))
              (world_with [limit_order "o1" BUY (dec 10 1) (dec 9 1)] [])).2)
  = 2%nat.
Proof.
  apply (run_cancels_every_tenth_cycle (replicate 25 (friendly [abc_quote]))
           (world_with [limit_order "o1" BUY (dec 10 1) (dec 9 1)] [])).
  vm_compute. reflexivity.
Defined.

Lemma run_loop_exited world n s s' :
  run_loop world n s = (Exited, s') →
  ∃ ext before after records,
    world = before ++ ext :: after ∧
    keyboard_interrupt ext = true ∧
    Forall (λ e, keyboard_interrupt e = false) before ∧
    log s' = records ++ [info_cancelling_subs; info_exiting].
Proof.
  revert n s. induction world as [|ext world IH]; intros n s; simpl; [discriminate|].
  destruct (cycle ext s) as [[] s1|e s1]; [|discriminate].
  destruct (keyboard_interrupt ext) eqn:Hint.
  - destruct (decide _); intros [= <-]; exists ext, [], world; eexists;
      (split; [reflexivity|]); (split; [exact Hint|]); (split; [constructor|]);
      simpl; by rewrite <- app_assoc.
  - destruct (decide _); intros Hrun; apply IH in Hrun
      as (ext' & before & after & records & -> & Hi & Hb & Hlog);
      exists ext', (ext :: before), after, records;
      (split; [reflexivity|]); (split; [exact Hi|]); (split; [by constructor|done]).
Qed.

(** [run] leaves through its interrupt handler only at the first cycle
    during which an interrupt arrives; it then cancels the subscriptions and
    writes the exit record last, and the cycles that were to follow do not
    take place. *)
Theorem run_exits_at_first_interrupt world s s' :
  run world s = (Exited, s') →
  ∃ ext before after records,
    world = before ++ ext :: after ∧
    keyboard_interrupt ext = true ∧
    Forall (λ e, keyboard_interrupt e = false) before ∧
    log s' = records ++ [info_cancelling_subs; info_exiting] ∧
    run (before ++ [ext]) s = (Exited, s').
Proof.
  intros Hrun. destruct (run_loop_exited _ _ _ _ Hrun)
    as (ext & before & after & records & -> & Hi & Hb & Hlog).
  exists ext, before, after, records. repeat split; try done.
  revert Hrun. unfold run. generalize 0%nat. revert s.
  induction before as [|e before IH]; intros s n; simpl.
  - destruct (cycle ext s) as [[] s1|]; [|done]. rewrite Hi.
    by destruct (decide _).
  - inversion Hb as [|? ? He Hb']; subst.
    destruct (cycle e s) as [[] s1|]; [|done]. rewrite He.
    destruct (decide _); by apply IH.
Qed.

Lemma run_exits_at_first_interrupt_witness :
  ∃ ext before after records,
    [friendly [abc_quote]; interrupted [abc_quote]; friendly [abc_quote]]
      = before ++ ext :: after ∧
    keyboard_interrupt ext = true ∧
    Forall (λ e, keyboard_interrupt e = false) before ∧
    log (run [friendly [abc_quote]; interrupted [abc_quote]; friendly [abc_quote]]
             (world_with [] [])).2
      = records ++ [info_cancelling_subs; info_exiting] ∧
    run (before ++ [ext]) (world_with [] [])
      = (Exited,
         (run [friendly [abc_quote]; interrupted [abc_quote]; friendly [abc_quote]]
              (world_with [] [])).2).
Proof.
  apply (run_exits_at_first_interrupt
           [friendly [abc_quote]; interrupted [abc_quote]; friendly [abc_quote]]
           (world_with [] [])).
  vm_compute. reflexivity.
Defined.

(** ** Edges of a cycle *)

(** With no pending order a cycle asks neither the contracts collection nor
    the quote source: whatever the outside world would answer, it returns,
    leaves the collections as they are, empties the manager's own fields and
    writes two log records. *)
Theorem cycle_without_orders_is_idle ext s :
  orders_collection s = [] →
  cycle ext s =
  Ok tt (mkState [] (portfolios_collection s) (contracts_collection s) [] [] ∅
                 (log s ++ [info_num_orders 0; info_processing_orders])).
Proof.
  intros H. unfold cycle, update_orders, map_orders_to_conids,
    get_market_data_snapshots, process_orders. run_monad.
  rewrite H. simpl. unfold set_orders, add_log. simpl. rewrite H.
  by rewrite <- app_assoc.
Qed.

Lemma cycle_without_orders_is_idle_witness :
  cycle unreachable (world_with [] []) =
  Ok tt (mkState [] (portfolios_collection (world_with [] []))
                 [Contract.mk "ABC" 265598] [] [] ∅
                 [info_num_orders 0; info_processing_orders]).
Proof. apply (cycle_without_orders_is_idle unreachable (world_with [] [])). reflexivity. Defined.

(** An order whose type is neither "MKT" nor "LMT" is not refused: with a
    quote for its symbol it is filled like a market order, at the ask for a
    BUY and the bid for a SELL, after an error record naming the type has
    been logged. *)
Theorem unknown_order_type_fills_as_market ext order s quote :
  quotes_resolved s →
  symbol_price_map s !! Order.symbol order = Some quote →
  Order.order_type order ≠ "MKT" →
  Order.order_type order ≠ "LMT" →
  ∃ conid,
    dict_get (Order.symbol order) (symbol_conid_map s) = Some conid ∧
    process_order_single ext order s =
      update_positions ext
        (fill_record order conid (crossing_price (Order.side order) quote)) order
        (add_log (error_invalid_order_type (Order.order_type order)) s).
Proof.
  intros Hres Hq Hm Hl.
  destruct (Hres (Order.symbol order)) as [conid Hc]; [by rewrite Hq|].
  exists conid. split; [exact Hc|].
  rewrite (process_order_single_quote _ _ quote) by done.
  rewrite !decide_False by done.
  by apply process_market_order_fill.
Qed.

Lemma unknown_order_type_fills_as_market_witness :
  ∃ conid,
    dict_get "ABC" [("ABC", 265598%Z)] = Some conid ∧
    process_order_single (friendly [abc_quote])
      (Order.mk "o1" "P" "ABC" "STP" SELL (dec 10 1) None)
      (quoted_world [Order.mk "o1" "P" "ABC" "STP" SELL (dec 10 1) None] [] abc_bid_ask) =
    update_positions (friendly [abc_quote])
      (fill_record (Order.mk "o1" "P" "ABC" "STP" SELL (dec 10 1) None) conid (dec 950 100))
      (Order.mk "o1" "P" "ABC" "STP" SELL (dec 10 1) None)
      (add_log (error_invalid_order_type "STP")
         (quoted_world [Order.mk "o1" "P" "ABC" "STP" SELL (dec 10 1) None] [] abc_bid_ask)).
Proof.
  apply (unknown_order_type_fills_as_market (friendly [abc_quote])
           (Order.mk "o1" "P" "ABC" "STP" SELL (dec 10 1) None)
           (quoted_world [Order.mk "o1" "P" "ABC" "STP" SELL (dec 10 1) None] [] abc_bid_ask)
           abc_bid_ask);
    [apply quoted_world_resolved | reflexivity | discriminate | discriminate].
Defined.

(** A limit order that carries no limit price cannot be compared with the
    quote: processing it raises [TypeError] before anything is stored or
    logged, for a BUY as for a SELL. *)
Theorem limit_order_without_price_raises ext order s quote :
  symbol_price_map s !! Order.symbol order = Some quote →
  Order.order_type order = "LMT" →
  Order.limit_price order = None →
  process_order_single ext order s = Raise TypeError s.
Proof.
  intros Hq Ht Hl. rewrite (process_order_single_quote _ _ quote) by done.
  rewrite decide_False by (rewrite Ht; discriminate). rewrite decide_True by done.
  unfold process_limit_order, compare_with_limit, bind. rewrite Hl.
  by destruct (Order.side order).
Qed.

Lemma limit_order_without_price_raises_witness :
  process_order_single (friendly [abc_quote])
    (Order.mk "o1" "P" "ABC" "LMT" SELL (dec 10 1) None)
    (quoted_world [Order.mk "o1" "P" "ABC" "LMT" SELL (dec 10 1) None] [] abc_bid_ask)
  = Raise TypeError
      (quoted_world [Order.mk "o1" "P" "ABC" "LMT" SELL (dec 10 1) None] [] abc_bid_ask).
Proof.
  apply (limit_order_without_price_raises (friendly [abc_quote])
           (Order.mk "o1" "P" "ABC" "LMT" SELL (dec 10 1) None)
           (quoted_world [Order.mk "o1" "P" "ABC" "LMT" SELL (dec 10 1) None] [] abc_bid_ask)
           abc_bid_ask); reflexivity.
Defined.

(** A due market order whose portfolio has no document is not filled: the
    new position is logged, then [ValidationError] is raised with both
    collections untouched, so the order is still pending. *)
Theorem fill_without_portfolio_raises ext order s quote :
  quotes_resolved s →
  symbol_price_map s !! Order.symbol order = Some quote →
  Order.order_type order = "MKT" →
  portfolios_collection s !! Order.portfolio_id order = None →
  ∃ s', process_order_single ext order s = Raise ValidationError s' ∧
        same_stores s s' ∧
        ∃ fill, log s' = log s ++ [info_new_position fill].
Proof.
  intros Hres Hq Ht Hp.
  destruct (Hres (Order.symbol order)) as [conid Hc]; [by rewrite Hq|].
  rewrite (process_order_single_quote _ _ quote) by done.
  rewrite decide_True by done.
  rewrite (process_market_order_fill _ _ _ _ conid) by done.
  rewrite update_positions_no_portfolio by done.
  eexists. split; [reflexivity|]. split; [done|]. by eexists.
Qed.

Lemma fill_without_portfolio_raises_witness :
  ∃ s', process_order_single (friendly [abc_quote])
          (Order.mk "o1" "Q" "ABC" "MKT" BUY (dec 10 1) None)
          (quoted_world [Order.mk "o1" "Q" "ABC" "MKT" BUY (dec 10 1) None] [] abc_bid_ask)
        = Raise ValidationError s' ∧
        same_stores
          (quoted_world [Order.mk "o1" "Q" "ABC" "MKT" BUY (dec 10 1) None] [] abc_bid_ask) s' ∧
        ∃ fill, log s' = [] ++ [info_new_position fill].
Proof.
  apply (fill_without_portfolio_raises (friendly [abc_quote])
           (Order.mk "o1" "Q" "ABC" "MKT" BUY (dec 10 1) None)
           (quoted_world [Order.mk "o1" "Q" "ABC" "MKT" BUY (dec 10 1) None] [] abc_bid_ask)
           abc_bid_ask);
    [apply quoted_world_resolved | reflexivity | reflexivity | reflexivity].
Defined.

(** ** The symbol map *)

Lemma dict_get_set_eq {V} k (v : V) d : dict_get k (dict_set k v d) = Some v.
Proof.
  induction d as [|[k' v'] d IH]; simpl.
  - by rewrite decide_True.
  - destruct (decide (k' = k)) as [->|Hne]; simpl.
    + by rewrite decide_True.
    + by rewrite decide_False.
Qed.

Lemma dict_get_set_ne {V} k k0 (v : V) d :
  k ≠ k0 → dict_get k0 (dict_set k v d) = dict_get k0 d.
Proof.
  intros Hne. induction d as [|[k' v'] d IH]; simpl.
  - by rewrite decide_False.
  - destruct (decide (k' = k)) as [->|Hk]; simpl.
    + by rewrite !decide_False.
    + destruct (decide (k' = k0)); [done|exact IH].
Qed.

Lemma dict_keys_set {V} k (v : V) d k0 :
  k0 ∈ dict_keys (dict_set k v d) ↔ k0 = k ∨ k0 ∈ dict_keys d.
Proof.
  unfold dict_keys. induction d as [|[k' v'] d IH]; simpl.
  - rewrite list_elem_of_singleton. split; [by left|]. intros [|H]; [done|].
    by apply elem_of_nil in H.
  - destruct (decide (k' = k)) as [->|Hk]; simpl; rewrite !elem_of_cons.
    + tauto.
    + rewrite IH. tauto.
Qed.

(** Assignment keeps the keys of a dictionary distinct. *)
Lemma dict_set_NoDup {V} k (v : V) d :
  NoDup (dict_keys d) → NoDup (dict_keys (dict_set k v d)).
Proof.
  unfold dict_keys. induction d as [|[k' v'] d IH]; simpl; intros Hd.
  - apply NoDup_singleton.
  - apply list.NoDup_cons in Hd as [Hk' Hd].
    destruct (decide (k' = k)) as [->|Hk]; simpl; apply list.NoDup_cons.
    + done.
    + split; [|by apply IH].
      intros Hin. apply (dict_keys_set k v d k') in Hin as [->|Hin]; done.
Qed.

Lemma dict_get_None_keys {V} k (d : list (string * V)) :
  dict_get k d = None ↔ k ∉ dict_keys d.
Proof.
  unfold dict_keys. induction d as [|[k' v'] d IH]; simpl.
  - split; [intros _; apply not_elem_of_nil|done].
  - rewrite not_elem_of_cons. destruct (decide (k' = k)) as [->|Hk].
    + split; [done|]. intros [Hne _]. done.
    + rewrite IH. split; [intros H; split; [congruence|done]|tauto].
Qed.

Lemma for_each_modify {A} (l : list A) (f : A → State → State) s :
  for_each l (λ x, modify (f x)) s = Ok tt (foldl (λ s x, f x s) s l).
Proof. revert s. induction l as [|x l IH]; intros s; simpl; [done|]. apply IH. Qed.

(** The dictionary built by assigning each contract in turn holds, for a
    symbol, the identifier of the last contract with that symbol. *)
Lemma dict_get_foldl_contracts k contracts d :
  dict_get k (foldl (λ d c, dict_set (Contract.symbol c) (Contract.con_id c) d) d contracts)
  = match list.last (filter (λ c, Contract.symbol c = k) contracts) with
    | Some c => Some (Contract.con_id c)
    | None => dict_get k d
    end.
Proof.
  revert d. induction contracts as [|c l IH]; intros d; simpl; [done|].
  rewrite IH. destruct (decide (Contract.symbol c = k)) as [Hc|Hc].
  - rewrite filter_cons_True by done. rewrite last_cons.
    destruct (list.last _); [done|]. rewrite <- Hc. apply dict_get_set_eq.
  - rewrite filter_cons_False by done.
    destruct (list.last _); [done|]. by apply dict_get_set_ne.
Qed.

Lemma foldl_contracts_NoDup contracts d :
  NoDup (dict_keys d) →
  NoDup (dict_keys (foldl (λ d c, dict_set (Contract.symbol c) (Contract.con_id c) d)
                          d contracts)).
Proof.
  revert d. induction contracts as [|c l IH]; intros d Hd; simpl; [done|].
  apply IH. by apply dict_set_NoDup.
Qed.

Lemma filter_none {A} (P : A → Prop) `{!∀ x, Decision (P x)} (l : list A) :
  (∀ x, x ∈ l → ¬ P x) → filter P l = [].
Proof.
  induction l as [|x l IH]; intros Hl; [done|].
  rewrite filter_cons_False by (apply Hl; left). apply IH.
  intros y Hy. apply Hl. by right.
Qed.

Lemma for_each_dict_set contracts s0 :
  for_each contracts (λ contract,
    modify (λ s, set_symbol_conid_map
                   (dict_set (Contract.symbol contract) (Contract.con_id contract)
                             (symbol_conid_map s)) s)) s0
  = Ok tt (set_symbol_conid_map
             (foldl (λ d c, dict_set (Contract.symbol c) (Contract.con_id c) d)
                    (symbol_conid_map s0) contracts) s0).
Proof.
  revert s0. induction contracts as [|c l IH]; intros s0; simpl.
  - by destruct s0.
  - unfold bind, modify at 1. rewrite IH. by destruct s0.
Qed.

(** What [resolve_instruments] makes of the symbol map. *)
Lemma resolve_instruments_map s :
  symbol_conid_map (final (resolve_instruments s)) =
  if decide (length (orders_collection s) = 0%nat) then []
  else foldl (λ d c, dict_set (Contract.symbol c) (Contract.con_id c) d) []
         (filter (λ c, Contract.symbol c ∈ (Order.symbol <$> orders_collection s))
                 (contracts_collection s)).
Proof.
  unfold resolve_instruments, update_orders, map_orders_to_conids.
  unfold bind, get, logging_info, modify at 1 2 3 4. cbn [orders set_orders add_log
    set_symbol_conid_map set_symbol_price_map orders_collection contracts_collection].
  case_decide; [done|]. unfold modify at 1. rewrite for_each_dict_set. done.
Qed.

(** The instrument resolver. After the first two steps of a cycle the keys
    of the symbol map are distinct; a symbol is mapped only if it is the
    symbol of a pending order and of a document of the contracts
    collection; a pending symbol is mapped to the identifier of the last
    document that carries it; every other symbol is absent. *)
Theorem resolver_maps_listed_pending_symbols s symbol :
  let resolved := symbol_conid_map (final (resolve_instruments s)) in
  NoDup (dict_keys resolved) ∧
  (∀ conid, dict_get symbol resolved = Some conid →
     symbol ∈ (Order.symbol <$> orders_collection s) ∧
     Contract.mk symbol conid ∈ contracts_collection s) ∧
  (symbol ∈ (Order.symbol <$> orders_collection s) →
   ∀ before conid after,
     contracts_collection s = before ++ Contract.mk symbol conid :: after →
     (∀ c, c ∈ after → Contract.symbol c ≠ symbol) →
     dict_get symbol resolved = Some conid) ∧
  (symbol ∉ (Order.symbol <$> orders_collection s) → dict_get symbol resolved = None) ∧
  ((∀ c, c ∈ contracts_collection s → Contract.symbol c ≠ symbol) →
   dict_get symbol resolved = None).
Proof.
  intros resolved. unfold resolved. rewrite resolve_instruments_map.
  destruct (decide (length (orders_collection s) = 0%nat)) as [Hz|Hz].
  { apply length_zero_iff_nil in Hz. rewrite Hz. simpl.
    split; [apply NoDup_nil_2|]. split; [done|]. split; [|done].
    intros Hin. by apply elem_of_nil in Hin. }
  split; [apply foldl_contracts_NoDup, NoDup_nil_2|].
  rewrite dict_get_foldl_contracts. rewrite list_filter_filter.
  split; [|split; [|split]].
  - intros conid Hget.
    destruct (list.last _) as [c|] eqn:Hlast; [|done].
    injection Hget as <-. apply last_Some_elem_of, list_elem_of_filter in Hlast
      as [[Hsym Hpending] Hin].
    subst symbol. split; [done|]. by destruct c.
  - intros Hpending before conid after Hsplit Hafter. rewrite Hsplit.
    rewrite list.filter_app, filter_cons_True by done.
    replace (filter _ after) with (@nil Contract.t).
    + by rewrite last_snoc.
    + symmetry. apply filter_none. intros c Hc [Hsym _]. by apply (Hafter c).
  - intros Hnot. destruct (list.last _) as [c|] eqn:Hlast; [|done].
    apply last_Some_elem_of, list_elem_of_filter in Hlast as [[Hsym Hpending] Hin].
    by subst symbol.
  - intros Hnone. destruct (list.last _) as [c|] eqn:Hlast; [|done].
    apply last_Some_elem_of, list_elem_of_filter in Hlast as [[Hsym Hpending] Hin].
    by apply Hnone in Hin.
Qed.

Lemma resolver_maps_listed_pending_symbols_witness :
  dict_get "ABC"
    (symbol_conid_map
       (final (resolve_instruments
                 (mkState [market_order "o1" BUY (dec 1 1)] ∅
                    [Contract.mk "ABC" 1; Contract.mk "XYZ" 7; Contract.mk "ABC" 265598]
                    [] [] ∅ []))))
  = Some 265598%Z.
Proof.
  destruct (resolver_maps_listed_pending_symbols
              (mkState [market_order "o1" BUY (dec 1 1)] ∅
                 [Contract.mk "ABC" 1; Contract.mk "XYZ" 7; Contract.mk "ABC" 265598]
                 [] [] ∅ []) "ABC") as (_ & _ & Hlast & _).
  apply (Hlast ltac:(simpl; left) [Contract.mk "ABC" 1; Contract.mk "XYZ" 7] 265598%Z []
               eq_refl).
  intros c Hc. by apply elem_of_nil in Hc.
Defined.

(** ** The quote refresh *)

Lemma index_Some x l i :
  index x l = Some i → l !! i = Some x ∧ ∀ j, (j < i)%nat → l !! j ≠ Some x.
Proof.
  revert i. induction l as [|y l IH]; simpl; intros i; [done|].
  case_decide as Hy.
  - intros [= <-]. split; [by rewrite Hy|]. intros j Hj. lia.
  - destruct (index x l) as [k|]; simpl; [|done].
    intros [= <-]. destruct (IH k eq_refl) as [Hk Hfirst]. split; [done|].
    intros [|j] Hj; simpl; [congruence|]. apply Hfirst. lia.
Qed.

Lemma symbol_of_None conid d : symbol_of conid d = None ↔ conid ∉ dict_values d.
Proof.
  unfold symbol_of. rewrite <- index_None.
  destruct (index conid (dict_values d)) as [i|] eqn:Hi; simpl; [|done].
  split; [|done]. intros Hk. apply index_Some_lt in Hi.
  apply lookup_ge_None in Hk. unfold dict_keys in Hk. unfold dict_values in Hi.
  rewrite length_fmap in Hk. rewrite length_fmap in Hi. lia.
Qed.

(** One pass of the loop over the snapshots, by cases. *)
Lemma record_snapshot_cases snapshot s :
  record_snapshot snapshot s =
  match symbol_of (conidEx snapshot) (symbol_conid_map s) with
  | None => Raise ValueError s
  | Some symbol =>
      match quote_of snapshot with
      | None => Ok tt s
      | Some quote =>
          Ok tt (set_symbol_price_map (<[symbol := quote]> (symbol_price_map s)) s)
      end
  end.
Proof.
  destruct (symbol_of _ _) as [symbol|] eqn:Hsym.
  - unfold symbol_of in Hsym. unfold record_snapshot, quote_of. run_monad.
    destruct (index _ _) as [i|]; simpl in *; [|done]. rewrite Hsym. simpl.
    destruct (fields snapshot !! "84") as [b|]; destruct (fields snapshot !! "86") as [a|];
      simpl; done.
  - apply record_snapshot_unresolved. by apply symbol_of_None.
Qed.

(** After the loop over the snapshots has returned, a symbol holds the quote
    of the last snapshot that quotes it, or what it held before. *)
Lemma record_snapshots_last snapshots s s' symbol :
  for_each snapshots record_snapshot s = Ok tt s' →
  symbol_conid_map s' = symbol_conid_map s ∧
  symbol_price_map s' !! symbol =
    match list.last (filter (quotes symbol (symbol_conid_map s)) snapshots) with
    | Some snapshot => quote_of snapshot
    | None => symbol_price_map s !! symbol
    end.
Proof.
  revert s. induction snapshots as [|snapshot l IH]; intros s; simpl.
  - by intros [= <-].
  - unfold bind. rewrite record_snapshot_cases.
    destruct (symbol_of _ _) as [symbol0|] eqn:Hsym; [|done].
    destruct (quote_of snapshot) as [quote|] eqn:Hquote.
    + intros Hl. apply IH in Hl as [Hmap Hprice]. simpl in *. split; [done|].
      rewrite Hprice. destruct (decide (symbol0 = symbol)) as [->|Hne].
      * rewrite filter_cons_True by (split; [done|by rewrite Hquote]).
        rewrite last_cons. destruct (list.last _); [done|].
        by rewrite lookup_insert_eq.
      * rewrite filter_cons_False by (intros [? _]; congruence).
        destruct (list.last _); [done|]. by rewrite lookup_insert_ne.
    + intros Hl. apply IH in Hl as [Hmap Hprice]. split; [done|].
      rewrite Hprice. rewrite filter_cons_False; [done|].
      intros [_ [? ?]]. congruence.
Qed.

(** The quote refresh, when it returns. Starting from an empty price map,
    as [__map_orders_to_conids] leaves it, a symbol is quoted after the
    refresh exactly when the answer of the quote source holds a snapshot
    with both fields whose identifier is looked up to that symbol, and its
    quote is then the bid and ask of the last such snapshot. *)
Theorem refresh_keeps_last_complete_snapshot ext s s' snapshots symbol :
  symbol_price_map s = ∅ →
  market_data_snapshot ext (dict_values (symbol_conid_map s)) FIELDS = Some snapshots →
  get_market_data_snapshots ext s = Ok tt s' →
  symbol_price_map s' !! symbol =
    list.last (filter (quotes symbol (symbol_conid_map s)) snapshots) ≫= quote_of.
Proof.
  intros Hempty Hanswer. unfold get_market_data_snapshots. run_monad.
  case_decide as Hnil.
  - intros [= <-]. rewrite Hempty, lookup_empty. rewrite filter_none; [done|].
    intros snapshot _ [Hsym _]. unfold symbol_of in Hsym. rewrite Hnil in Hsym.
    done.
  - rewrite Hanswer. intros Hl.
    apply (record_snapshots_last _ _ _ symbol) in Hl as [_ Hprice].
    rewrite Hprice. simpl. rewrite Hempty, lookup_empty.
    by destruct (list.last _).
Qed.

Lemma refresh_keeps_last_complete_snapshot_witness :
  symbol_price_map
    (final (get_market_data_snapshots
              (friendly [abc_snapshot (dec 1 1) (dec 2 1); abc_quote])
              (set_symbol_price_map ∅ (quoted_world [] [] abc_bid_ask))))
    !! "ABC"
  = list.last (filter (quotes "ABC" [("ABC", 265598%Z)])
                      [abc_snapshot (dec 1 1) (dec 2 1); abc_quote]) ≫= quote_of.
Proof.
  apply (refresh_keeps_last_complete_snapshot
           (friendly [abc_snapshot (dec 1 1) (dec 2 1); abc_quote])
           (set_symbol_price_map ∅ (quoted_world [] [] abc_bid_ask)));
    vm_compute; reflexivity.
Defined.

(** The reverse lookup never answers with a key that stands behind another
    key with the same identifier. *)
Lemma symbol_of_later_key d before first between second after conid conid' :
  d = before ++ (first, conid) :: between ++ (second, conid) :: after →
  NoDup (dict_keys d) →
  symbol_of conid' d ≠ Some second.
Proof.
  intros Hd Hnodup Hsym. unfold symbol_of in Hsym.
  destruct (index conid' (dict_values d)) as [i|] eqn:Hi; simpl in Hsym; [|done].
  apply index_Some in Hi as [Hi Hfirst].
  assert (dict_keys d = (before.*1 ++ first :: between.*1) ++ second :: after.*1) as Hkeys.
  { unfold dict_keys. rewrite Hd, !fmap_app, !fmap_cons, fmap_app, fmap_cons.
    simpl. by rewrite <- app_assoc. }
  assert (dict_values d = (before.*2 ++ conid :: between.*2) ++ conid :: after.*2) as Hvalues.
  { unfold dict_values. rewrite Hd, !fmap_app, !fmap_cons, fmap_app, fmap_cons.
    simpl. by rewrite <- app_assoc. }
  set (n := length (before.*1 ++ first :: between.*1)).
  assert (dict_keys d !! n = Some second) as Hn
    by (rewrite Hkeys; by apply list_lookup_middle).
  assert (i = n) as -> by (by apply (NoDup_lookup (dict_keys d) i n second)).
  assert (length (before.*2 ++ conid :: between.*2) = n) as Hlen.
  { unfold n. rewrite !length_app. simpl. by rewrite !length_fmap. }
  rewrite Hvalues, list_lookup_middle in Hi by done. injection Hi as <-.
  apply (Hfirst (length before.*2)).
  - rewrite <- Hlen, length_app. simpl. lia.
  - rewrite Hvalues, <- app_assoc. by apply list_lookup_middle.
Qed.

(** A shared identifier. When two symbols are mapped to the same identifier,
    the one that entered the symbol map later is never quoted by the
    refresh, whatever the quote source answers and whether the refresh
    returns or raises: the reverse lookup stops at the first of them. *)
Theorem shared_identifier_starves_later_symbol
    ext s before first between second after conid :
  symbol_conid_map s = before ++ (first, conid) :: between ++ (second, conid) :: after →
  NoDup (dict_keys (symbol_conid_map s)) →
  symbol_price_map s !! second = None →
  symbol_price_map (final (get_market_data_snapshots ext s)) !! second = None.
Proof.
  intros Hd Hnodup Hnone. unfold get_market_data_snapshots. run_monad.
  case_decide; [done|].
  destruct (market_data_snapshot ext _ _) as [snapshots|]; [|done].
  match goal with |- symbol_price_map (final (for_each _ _ ?s0)) !! _ = _ =>
    apply (for_each_final
             (λ t, symbol_conid_map t = symbol_conid_map s ∧
                   symbol_price_map t !! second = None)
             snapshots record_snapshot) with (s := s0)
  end; [|done].
  intros snapshot t [Hmap Ht]. rewrite record_snapshot_cases.
  destruct (symbol_of _ _) as [symbol|] eqn:Hsym; [|done].
  destruct (quote_of snapshot); simpl; [|done]. split; [done|].
  rewrite lookup_insert_ne; [done|]. intros ->. rewrite Hmap in Hsym.
  by apply (symbol_of_later_key _ _ _ _ _ _ _ _ Hd Hnodup) in Hsym.
Qed.

Lemma shared_identifier_starves_later_symbol_witness :
  symbol_price_map
    (final (get_market_data_snapshots (friendly [abc_quote])
              (mkState [] ∅ [] [] [("ABC", 265598%Z); ("ABC.X", 265598%Z)] ∅ [])))
    !! "ABC.X" = None.
Proof.
  apply (shared_identifier_starves_later_symbol (friendly [abc_quote])
           (mkState [] ∅ [] [] [("ABC", 265598%Z); ("ABC.X", 265598%Z)] ∅ [])
           [] "ABC" [] "ABC.X" [] 265598%Z);
    [reflexivity | apply (bool_decide_unpack _); vm_compute; exact I | reflexivity].
Defined.

(** ** What a fill does to the entries of a portfolio *)

Lemma update_positions_effect ext new_position order s :
  let s' := final (update_positions ext new_position order s) in
  portfolios_collection s' = portfolios_collection s ∨
  ∃ portfolio data,
    portfolios_collection s !! Order.portfolio_id order = Some portfolio ∧
    portfolios_collection s'
      = <[Order.portfolio_id order := data]> (portfolios_collection s) ∧
    (Portfolio.positions data = Portfolio.positions portfolio ++ [new_position] ∨
     ∃ existing updated,
       existing_for (Position.symbol new_position) (Portfolio.positions portfolio)
         = Some existing ∧
       Position.side existing ≠ None ∧
       Position.symbol updated = Position.symbol new_position ∧
       Portfolio.positions data = replace_position updated (Portfolio.positions portfolio)).
Proof.
  unfold update_positions. run_monad.
  destruct (portfolios_collection s !! Order.portfolio_id order) as [portfolio|] eqn:Hp;
    simpl; [|by left].
  destruct (head _) as [existing|] eqn:Hex; simpl.
  - case_decide as Hside; simpl.
    + assert (Position.symbol existing = Position.symbol new_position) as Hsym.
      { apply head_Some_elem_of, list_elem_of_filter in Hex. tauto. }
      unfold update_existing_position. run_monad.
      destruct (Position.side existing) as [[]|] eqn:Hs; simpl; [| |by left].
      all: unfold portfolio_set; destruct (portfolio_set_ok _ _ _);
        unfold modify, raise; simpl; [|by left].
      all: right; eexists portfolio, _; split; [done|]; split; [reflexivity|].
      * right. exists existing,
          (side_recomputed (update_existing_buy_position existing new_position)).
        split; [exact Hex|]. split; [congruence|]. split; [|reflexivity].
        unfold update_existing_buy_position. simpl. by case_decide.
      * right. exists existing,
          (side_recomputed (update_existing_sell_position existing new_position)).
        split; [exact Hex|]. split; [congruence|]. split; [|reflexivity].
        unfold update_existing_sell_position. simpl. by case_decide.
    + unfold portfolio_set. destruct (portfolio_set_ok _ _ _);
        unfold modify, raise; simpl; [|by left].
      right. eexists portfolio, _. split; [done|]. split; [reflexivity|]. by left.
  - unfold portfolio_set. destruct (portfolio_set_ok _ _ _);
      unfold modify, raise; simpl; [|by left].
    right. eexists portfolio, _. split; [done|]. split; [reflexivity|]. by left.
Qed.

Lemma symbols_replace_position updated positions :
  Position.symbol <$> replace_position updated positions = Position.symbol <$> positions.
Proof.
  unfold replace_position. rewrite <- list_fmap_compose. apply list_fmap_ext.
  intros i p _. simpl. by case_decide.
Qed.

Lemma filter_replace_position (P : Position.t → Prop) `{!∀ p, Decision (P p)}
    updated positions :
  (∀ p, Position.symbol p = Position.symbol updated → ¬ P p) →
  filter P (replace_position updated positions) = filter P positions.
Proof.
  intros Hnot. unfold replace_position.
  induction positions as [|p l IH]; [done|]. rewrite fmap_cons.
  destruct (decide (Position.symbol p = Position.symbol updated)) as [Heq|Hne].
  - rewrite !filter_cons_False; [done|by apply Hnot|by apply Hnot].
  - destruct (decide (P p)).
    + rewrite !filter_cons_True by done. by rewrite IH.
    + rewrite !filter_cons_False by done. done.
Qed.

Lemma existing_for_app symbol positions p position :
  existing_for symbol positions = Some position →
  existing_for symbol (positions ++ [p]) = Some position.
Proof.
  unfold existing_for. rewrite list.filter_app.
  destruct (filter _ positions); [done|]. done.
Qed.

Lemma positions_stay_same s s' :
  portfolios_collection s' = portfolios_collection s → positions_stay s s'.
Proof.
  intros Heq portfolio_id. unfold symbols_held, first_entry, positions_of.
  rewrite Heq. split; [done|]. by intros.
Qed.

#[local] Instance positions_stay_preorder : PreOrder positions_stay.
Proof.
  split; [intros s; by apply positions_stay_same|].
  intros s1 s2 s3 H12 H23 portfolio_id.
  destruct (H12 portfolio_id) as [Hp12 Hf12]. destruct (H23 portfolio_id) as [Hp23 Hf23].
  split; [by trans (symbols_held portfolio_id s2)|].
  intros symbol p Hp Hside. apply Hf23; [|done]. by apply Hf12.
Qed.

Lemma symbols_outside_same touched s s' :
  portfolios_collection s' = portfolios_collection s → symbols_outside touched s s'.
Proof. intros Heq portfolio_id. unfold positions_of. by rewrite Heq. Qed.

#[local] Instance symbols_outside_preorder touched : PreOrder (symbols_outside touched).
Proof.
  split; [intros s; by apply symbols_outside_same|].
  intros s1 s2 s3 H12 H23 portfolio_id. by rewrite H23.
Qed.

(** A fill removes and moves no entry, and leaves alone a first entry that
    has no side. *)
Lemma update_positions_positions_stay ext new_position order :
  steady positions_stay (update_positions ext new_position order).
Proof.
  intros s.
  destruct (update_positions_effect ext new_position order s)
    as [Heq|(portfolio & data & Hp & Hs' & Hdata)]; [by apply positions_stay_same|].
  intros portfolio_id. unfold symbols_held, first_entry, positions_of. rewrite Hs'.
  destruct (decide (portfolio_id = Order.portfolio_id order)) as [->|Hne];
    [|by rewrite lookup_insert_ne].
  rewrite lookup_insert_eq, Hp.
  destruct Hdata as [->|(existing & updated & Hex & Hside & Hsym & ->)].
  - split; [rewrite fmap_app; by apply prefix_app_r|].
    intros symbol p Hfirst _. by apply existing_for_app.
  - split; [by rewrite symbols_replace_position|].
    intros symbol p Hfirst Hflat.
    destruct (decide (symbol = Position.symbol updated)) as [->|Hother].
    + rewrite Hsym, Hex in Hfirst. by injection Hfirst as ->.
    + unfold existing_for in *.
      rewrite filter_replace_position; [done|]. congruence.
Qed.

(** A fill leaves alone the entries of every other symbol. *)
Lemma update_positions_symbols_outside ext touched new_position order :
  Position.symbol new_position ∈ touched →
  steady (symbols_outside touched) (update_positions ext new_position order).
Proof.
  intros Hin s.
  destruct (update_positions_effect ext new_position order s)
    as [Heq|(portfolio & data & Hp & Hs' & Hdata)]; [by apply symbols_outside_same|].
  intros portfolio_id. unfold positions_of. rewrite Hs'.
  destruct (decide (portfolio_id = Order.portfolio_id order)) as [->|Hne];
    [|by rewrite lookup_insert_ne].
  rewrite lookup_insert_eq, Hp.
  destruct Hdata as [->|(existing & updated & Hex & Hside & Hsym & ->)].
  - rewrite list.filter_app, filter_cons_False, filter_nil, app_nil_r; [done|].
    by intros Hnot.
  - apply filter_replace_position. intros p Hp' Hnot.
    by rewrite Hp', Hsym in Hnot.
Qed.

(** The two steps of a fill keep what each fill for the order's symbol keeps. *)
Lemma steady_fill (R : State → State → Prop) `{!PreOrder R} ext order fill_price :
  (∀ p, Position.symbol p = Order.symbol order → steady R (update_positions ext p order)) →
  steady R (position <- create_position order fill_price;;
            update_positions ext position order).
Proof.
  intros Hfill s. unfold create_position, bind, get, lift. cbn beta.
  destruct (dict_get (Order.symbol order) (symbol_conid_map s)); unfold ret, raise;
    simpl; [by apply Hfill|reflexivity].
Qed.

Lemma process_order_steady (R : State → State → Prop) `{!PreOrder R} ext order :
  (∀ s s', portfolios_collection s' = portfolios_collection s → R s s') →
  (∀ p, Position.symbol p = Order.symbol order → steady R (update_positions ext p order)) →
  steady R (process_order ext order).
Proof.
  intros Hsame Hfill.
  unfold process_order, process_order_single, process_market_order, process_limit_order,
    compare_with_limit, logging_info, logging_error. cbv zeta.
  repeat first [apply steady_fill; [apply _|exact Hfill] | steady_step];
    by apply Hsame.
Qed.

(** A relation that ignores everything but the portfolios, and that every
    fill for a pending order keeps, is kept by a cycle. *)
Lemma cycle_steady (R : State → State → Prop) `{!PreOrder R} ext s :
  (∀ s s', portfolios_collection s' = portfolios_collection s → R s s') →
  (∀ order p, order ∈ orders_collection s → Position.symbol p = Order.symbol order →
              steady R (update_positions ext p order)) →
  R s (final (cycle ext s)).
Proof.
  intros Hsame Hfill.
  destruct (resolve_instruments_returns s) as (s1 & Hr & [_ Hp1] & Hord & _).
  rewrite (cycle_after_resolution _ _ s1) by done.
  trans s1; [by apply Hsame|].
  pose proof (get_market_data_snapshots_portfolios_outside ext [] s1) as Hq.
  pose proof (get_market_data_snapshots_orders_kept ext s1) as Hk.
  unfold bind. destruct (get_market_data_snapshots ext s1) as [[] s2|e s2]; simpl in *.
  - trans s2.
    { apply Hsame, map_eq. intros pid. apply Hq, not_elem_of_nil. }
    unfold process_orders, logging_info, bind, modify, get.
    trans (add_log info_processing_orders s2); [by apply Hsame|].
    refine (steady_for_each_elem_of R _ _ _ (add_log info_processing_orders s2)).
    intros order Horder. apply process_order_steady; [apply _|done|].
    intros p Hp. apply Hfill; [|done]. simpl in Horder. by rewrite Hk, Hord in Horder.
  - apply Hsame, map_eq. intros pid. apply Hq, not_elem_of_nil.
Qed.

(** A cycle never removes or moves a position. Whether it returns or raises,
    the symbols of the entries a portfolio held before the cycle are, in the
    same order, the first symbols of the entries it holds after it. *)
Theorem cycle_never_removes_positions ext s portfolio_id :
  symbols_held portfolio_id s `prefix_of` symbols_held portfolio_id (final (cycle ext s)).
Proof.
  apply (cycle_steady positions_stay ext s).
  - intros. by apply positions_stay_same.
  - intros. apply update_positions_positions_stay.
Qed.

(** A flat entry is permanent. An entry without a side that is the first
    entry of a portfolio for its symbol, as netting to quantity 0 leaves it,
    is never updated again: after any cycle it is still the first entry for
    that symbol, with the same quantity and value. *)
Theorem flat_first_entry_is_permanent ext s portfolio_id symbol p :
  first_entry portfolio_id symbol s = Some p →
  Position.side p = None →
  first_entry portfolio_id symbol (final (cycle ext s)) = Some p.
Proof.
  apply (cycle_steady positions_stay ext s).
  - intros. by apply positions_stay_same.
  - intros. apply update_positions_positions_stay.
Qed.

Lemma flat_first_entry_is_permanent_witness :
  first_entry "P" "ABC"
    (final (cycle (friendly [abc_quote])
              (world_with [market_order "o1" BUY (dec 1 1)]
                          [abc_position None (dec 0 1) (dec 20 100)])))
  = Some (abc_position None (dec 0 1) (dec 20 100)).
Proof.
  apply (flat_first_entry_is_permanent (friendly [abc_quote])
           (world_with [market_order "o1" BUY (dec 1 1)]
                       [abc_position None (dec 0 1) (dec 20 100)]) "P" "ABC");
    reflexivity.
Defined.

(** A cycle changes the entries of no symbol other than the symbols of the
    orders that were pending when it started: in every portfolio the entries
    of all other symbols are what they were, whether it returns or raises. *)
Theorem cycle_touches_only_pending_symbols ext s portfolio_id :
  let pending := Order.symbol <$> orders_collection s in
  filter (λ p, Position.symbol p ∉ pending) (positions_of portfolio_id (final (cycle ext s)))
  = filter (λ p, Position.symbol p ∉ pending) (positions_of portfolio_id s).
Proof.
  intros pending. apply (cycle_steady (symbols_outside pending) ext s).
  - intros. by apply symbols_outside_same.
  - intros order p Horder Hp. apply update_positions_symbols_outside.
    rewrite Hp. unfold pending. by apply list_elem_of_fmap_2.
Qed.

(** ** The bar filter of [main.py] *)

Lemma open_prices_returned bars opens :
  (λ bar : main.Bar, bar !! "o") <$> bars = Some <$> opens →
  main.comprehension (λ _, main.Return true) (λ bar, main.subscript bar "o") bars
  = main.Return opens.
Proof.
  revert opens. induction bars as [|bar bars IH]; intros [|o opens];
    rewrite ?fmap_cons, ?fmap_nil; try done.
  intros [= Ho Hrest]. cbn [main.comprehension]. rewrite (IH opens) by done.
  unfold main.subscript. by rewrite Ho.
Qed.

Lemma open_prices_exist bars :
  Forall (λ bar : main.Bar, is_Some (bar !! "o")) bars →
  ∃ opens, (λ bar : main.Bar, bar !! "o") <$> bars = Some <$> opens.
Proof.
  induction 1 as [|bar bars [o Ho] _ [opens IH]]; [by exists []|].
  exists (o :: opens). by rewrite !fmap_cons, Ho, IH.
Qed.

Lemma open_at_opens bars opens i :
  (λ bar : main.Bar, bar !! "o") <$> bars = Some <$> opens →
  open_at bars i = opens !! i.
Proof.
  intros H. unfold open_at.
  assert (((λ bar : main.Bar, bar !! "o") <$> bars) !! i = (Some <$> opens) !! i) as Hi
    by (by rewrite H).
  rewrite !list_lookup_fmap in Hi.
  destruct (bars !! i); destruct (opens !! i); simpl in *; congruence.
Qed.

Lemma correlate_valid_lookup a w j :
  (0 < length w)%nat →
  main.correlate_valid a w !! j =
  if decide (j + length w ≤ length a)%nat then Some (main.dot (drop j a) w) else None.
Proof.
  intros Hw. revert j. induction a as [|x a IH]; intros j.
  - simpl. by rewrite decide_False by lia.
  - cbn [main.correlate_valid]. destruct (decide (length w ≤ length (x :: a))%nat) as [Hle|Hgt].
    + destruct j as [|j].
      * simpl in *. by rewrite decide_True by lia.
      * simpl in *. rewrite IH.
        destruct (decide (j + length w ≤ length a)%nat);
          [by rewrite decide_True by lia|by rewrite decide_False by lia].
    + simpl in *. by rewrite decide_False by lia.
Qed.

Lemma convolve_valid_returns a v :
  a ≠ [] → v ≠ [] → ∃ convolved, main.convolve_valid a v = main.Return convolved.
Proof.
  intros Ha Hv. unfold main.convolve_valid.
  assert (length a ≠ 0%nat) by (by destruct a).
  assert (length v ≠ 0%nat) by (by destruct v).
  destruct (decide (length a < length v)%nat); rewrite !decide_False by done; by eexists.
Qed.

(** The padded list of averages, read by index: ten NaN, then the mean of
    three consecutive opens, starting ten places back. *)
Lemma averages_lookup bars opens convolved i :
  (λ bar : main.Bar, bar !! "o") <$> bars = Some <$> opens →
  main.convolve_valid opens (replicate main.MOVING_AVERAGE_WINDOW 1%Qc)
    = main.Return convolved →
  (i < length bars)%nat →
  (replicate 10 None ++
     (Some <$> ((λ x, x / dec (Z.of_nat main.MOVING_AVERAGE_WINDOW) 1)%Qc <$> convolved)))
    !! i
  = Some (average_held_against bars i).
Proof.
  intros Hopens Hconv Hi. unfold average_held_against.
  assert (length opens = length bars) as Hlen.
  { apply (f_equal length) in Hopens. by rewrite !length_fmap in Hopens. }
  destruct (decide (i < 10)%nat) as [Hlt|Hge].
  - rewrite lookup_app_l by (by rewrite length_replicate).
    by rewrite lookup_replicate_2.
  - rewrite lookup_app_r by (rewrite length_replicate; lia).
    rewrite length_replicate, !list_lookup_fmap.
    unfold main.convolve_valid, main.MOVING_AVERAGE_WINDOW in Hconv.
    cbn [replicate length rev app] in Hconv.
    rewrite decide_False in Hconv by lia. rewrite !decide_False in Hconv by lia.
    injection Hconv as <-.
    rewrite correlate_valid_lookup by (simpl; lia).
    rewrite decide_True by (simpl; lia).
    rewrite !(open_at_opens bars opens) by done.
    destruct (lookup_lt_is_Some_2 opens (i - 10)) as [a Ha]; [lia|].
    destruct (lookup_lt_is_Some_2 opens (S (i - 10))) as [b Hb]; [lia|].
    destruct (lookup_lt_is_Some_2 opens (S (S (i - 10)))) as [c Hc]; [lia|].
    rewrite (drop_S _ _ _ Ha), (drop_S _ _ _ Hb), (drop_S _ _ _ Hc).
    replace (i - 9)%nat with (S (i - 10)) by lia.
    replace (i - 8)%nat with (S (S (i - 10))) by lia.
    rewrite Ha, Hb, Hc. simpl. unfold main.dot. simpl.
    rewrite zip_with_nil_r. simpl.
    change (dec (Z.of_nat main.MOVING_AVERAGE_WINDOW) 1) with (dec 3 1).
    do 2 f_equal. unfold Qcdiv. f_equal. ring.
Qed.

(** The comprehension over the zipped bars and averages, read by index. *)
Lemma comprehension_zip_lookup (bars : list main.Bar) (averages : list main.float) bs k :
  bs = drop k bars →
  (∀ i, (i < length bars)%nat → averages !! i = Some (average_held_against bars i)) →
  Forall (λ bar : main.Bar, is_Some (bar !! "o")) bars →
  main.comprehension
    (λ '(bar, open_ma),
       main.bind (main.subscript bar "o")
         (λ o, main.Return (main.lt o (main.times main.MOVING_AVERAGE_FILTER_THRESHOLD open_ma))))
    (λ '(bar, open_ma), main.Return bar)
    (zip bs (drop k averages))
  = main.Return (omap (λ i, if passes bars i then bars !! i else None) (seq k (length bs))).
Proof.
  intros Hbs Haverages Hopen. revert k Hbs.
  induction bs as [|bar bs IH]; intros k Hbs; [done|].
  assert (bars !! k = Some bar) as Hk.
  { rewrite <- (Nat.add_0_r k), <- lookup_drop, <- Hbs. done. }
  assert (bs = drop (S k) bars) as Hbs'.
  { rewrite (drop_S _ _ _ Hk) in Hbs. by injection Hbs. }
  pose proof (lookup_lt_Some _ _ _ Hk) as Hlt.
  rewrite (drop_S _ _ _ (Haverages k Hlt)).
  destruct (Forall_lookup_1 _ _ _ _ Hopen Hk) as [o Ho].
  cbn [zip_with main.comprehension length seq omap].
  rewrite (IH (S k) Hbs').
  unfold main.subscript. rewrite Ho. cbn [main.bind].
  assert (main.lt o (main.times main.MOVING_AVERAGE_FILTER_THRESHOLD
                       (average_held_against bars k)) = passes bars k) as ->.
  { unfold passes, open_at. rewrite Hk. simpl. rewrite Ho.
    by destruct (average_held_against bars k). }
  destruct (passes bars k) eqn:Hpass; simpl; rewrite Hpass; [by rewrite Hk|done].
Qed.

Lemma filter_bars_by_index bars :
  bars ≠ [] →
  Forall (λ bar : main.Bar, is_Some (bar !! "o")) bars →
  main.filter_bars bars
  = main.Return (omap (λ i, if passes bars i then bars !! i else None)
                      (seq 0 (length bars))).
Proof.
  intros Hne Hopen. destruct (open_prices_exist bars Hopen) as [opens Hopens].
  unfold main.filter_bars. rewrite (open_prices_returned bars opens Hopens).
  cbn [main.bind].
  destruct (convolve_valid_returns opens (replicate main.MOVING_AVERAGE_WINDOW 1%Qc))
    as [convolved Hconv]; [|done|].
  { intros ->. by destruct bars. }
  rewrite Hconv. cbn [main.bind].
  apply (comprehension_zip_lookup bars _ bars 0); [done| |done].
  intros i Hi. by apply (averages_lookup bars opens).
Qed.

Lemma omap_seq_sublist {A} (l : list A) (P : nat → bool) k m :
  omap (λ i, if P i then l !! i else None) (seq k m) `sublist_of` drop k l.
Proof.
  revert k. induction m as [|m IH]; intros k; [apply sublist_nil_l|].
  cbn [seq]. specialize (IH (S k)).
  destruct (l !! k) as [x|] eqn:Hk.
  - rewrite (drop_S _ _ _ Hk).
    destruct (P k) eqn:HP; simpl; rewrite HP, ?Hk;
      [by apply sublist_skip|by apply sublist_cons].
  - rewrite drop_ge in * by (apply lookup_ge_None in Hk; lia).
    destruct (P k) eqn:HP; simpl; rewrite HP, ?Hk; done.
Qed.

Lemma omap_seq_skip {A} (l : list A) (P : nat → bool) k m :
  (∀ i, (i < k)%nat → P i = false) →
  omap (λ i, if P i then l !! i else None) (seq 0 (k + m))
  = omap (λ i, if P i then l !! i else None) (seq k m).
Proof.
  intros Hfalse. rewrite seq_app, omap_app. simpl.
  replace (omap _ (seq 0 k)) with (@nil A); [done|].
  symmetry. assert (∀ j, (j ≤ k)%nat →
    omap (λ i, if P i then l !! i else None) (seq 0 j) = []) as H; [|by apply H].
  induction j as [|j IH]; intros Hj; [done|].
  rewrite seq_S, omap_app, IH by lia. simpl. by rewrite Hfalse by lia.
Qed.

Lemma passes_first_ten bars i : (i < 10)%nat → passes bars i = false.
Proof.
  intros Hi. unfold passes, average_held_against. rewrite decide_True by done.
  by destruct (open_at bars i).
Qed.

Lemma open_prices_missing bars :
  Exists (λ bar : main.Bar, bar !! "o" = None) bars →
  main.comprehension (λ _, main.Return true) (λ bar, main.subscript bar "o") bars
  = main.Raises main.KeyError.
Proof.
  induction 1 as [bar bars Hbar|bar bars _ IH]; cbn [main.comprehension main.bind].
  - unfold main.subscript. by rewrite Hbar.
  - rewrite IH. unfold main.subscript. by destruct (bar !! "o").
Qed.

(** The bar filter, bar by bar. For a non-empty list of bars that all have
    an open price, [filter_bars] returns, in their order, the bars at the
    indices i >= 10 whose open is below 1.5 times the mean of the opens of
    the bars at i-10, i-9 and i-8; the averages of the last windows are
    never used. *)
Theorem filter_bars_compares_with_window_ten_back bars :
  bars ≠ [] →
  Forall (λ bar : main.Bar, is_Some (bar !! "o")) bars →
  main.filter_bars bars
  = main.Return (omap (λ i, if passes bars i then bars !! i else None)
                      (seq 0 (length bars))).
Proof. apply filter_bars_by_index. Qed.

Lemma filter_bars_compares_with_window_ten_back_witness :
  main.filter_bars twelve_bars
  = main.Return (omap (λ i, if passes twelve_bars i then twelve_bars !! i else None)
                      (seq 0 (length twelve_bars))).
Proof.
  apply (filter_bars_compares_with_window_ten_back twelve_bars).
  - discriminate.
  - apply (bool_decide_unpack _). vm_compute. exact I.
Defined.

(** Of twelve bars, ten opening at 10, then one at 14 and one at 15, only
    the eleventh is returned: 14 is below 1.5 times 10, and 15 is not. *)
Example filter_bars_of_twelve :
  main.filter_bars twelve_bars = main.Return [bar_opening (dec 14 1)].
Proof. vm_compute. reflexivity. Qed.

(** The outcomes of the bar filter. A bar without an open price makes it
    raise KeyError; an empty list of bars makes it raise ValueError;
    otherwise it returns, and what it returns is a sublist of the bars
    after the tenth, so that the first ten bars are never returned and ten
    bars or fewer give the empty list. *)
Theorem filter_bars_outcomes bars :
  (Exists (λ bar : main.Bar, bar !! "o" = None) bars →
   main.filter_bars bars = main.Raises main.KeyError) ∧
  (bars = [] → main.filter_bars bars = main.Raises main.ValueError) ∧
  (bars ≠ [] → Forall (λ bar : main.Bar, is_Some (bar !! "o")) bars →
   ∃ filtered_bars, main.filter_bars bars = main.Return filtered_bars ∧
                    filtered_bars `sublist_of` drop 10 bars).
Proof.
  split; [|split].
  - intros Hmissing. unfold main.filter_bars. by rewrite open_prices_missing.
  - by intros ->.
  - intros Hne Hopen. eexists. split; [by apply filter_bars_by_index|].
    destruct (decide (10 ≤ length bars)%nat) as [Hlong|Hshort].
    + replace (length bars) with (10 + (length bars - 10))%nat by lia.
      rewrite omap_seq_skip by apply passes_first_ten.
      apply omap_seq_sublist.
    + replace (length bars) with (length bars + 0)%nat by lia.
      rewrite omap_seq_skip by (intros i Hi; apply passes_first_ten; lia).
      apply sublist_nil_l.
Qed.

Lemma filter_bars_outcomes_witness :
  main.filter_bars [] = main.Raises main.ValueError ∧
  ∃ filtered_bars,
    main.filter_bars (replicate 11 (bar_opening (dec 10 1))) = main.Return filtered_bars ∧
    filtered_bars `sublist_of` drop 10 (replicate 11 (bar_opening (dec 10 1))).
Proof.
  split.
  - by apply (filter_bars_outcomes []).
  - apply (filter_bars_outcomes (replicate 11 (bar_opening (dec 10 1)))).
    + discriminate.
    + apply (bool_decide_unpack _). vm_compute. exact I.
Defined.

(** ** The historical data endpoint of [main.py] *)

Lemma filter_bars_short bars :
  bars ≠ [] → (length bars ≤ 10)%nat →
  Forall (λ bar : main.Bar, is_Some (bar !! "o")) bars →
  main.filter_bars bars = main.Return [].
Proof.
  intros Hne Hshort Hopen. rewrite filter_bars_by_index by done. f_equal.
  replace (length bars) with (length bars + 0)%nat by lia.
  by rewrite omap_seq_skip by (intros i Hi; apply passes_first_ten; lia).
Qed.

(** A request leaves the collections alone and adds one entry to the list
    of requests. *)
Lemma request_historical_data_store env conid period bar st :
  (main.request_historical_data env conid period bar st).2
  = main.mkStore (main.hmds_collection st) (main.contracts_collection st)
                 (main.requests st ++ [conid]).
Proof.
  unfold main.request_historical_data.
  destruct (main.historical_market_data env conid period bar) as [response|e]; [|done].
  by destruct (response !! "data").
Qed.

(** The endpoint by cases: served from the store, or refreshed. *)
Lemma get_historical_market_data_cases env symbol st :
  let outcome := main.get_historical_market_data env symbol st in
  (∃ market_data,
     main.hmds_collection st !! main.upper env symbol = Some market_data ∧
     (main.now_at_check env - main.MarketData.last_updated market_data ≤ main.ONE_DAY)%Z ∧
     outcome = (main.Return market_data, st)) ∨
  (∃ e st', outcome = (main.Raises e, st') ∧
            main.hmds_collection st' = main.hmds_collection st ∧
            main.contracts_collection st' = main.contracts_collection st ∧
            (main.requests st' = main.requests st ∨
             ∃ conid, main.requests st' = main.requests st ++ [conid])) ∨
  (∃ contract historical_data,
     contract ∈ main.contracts_collection st ∧
     Contract.symbol contract = main.upper env symbol ∧
     outcome =
       (main.Return (main.MarketData.mk (main.upper env symbol) (main.now_at_store env)
                                        historical_data),
        main.mkStore
          (<[main.upper env symbol :=
               main.MarketData.mk (main.upper env symbol) (main.now_at_store env)
                                  historical_data]> (main.hmds_collection st))
          (main.contracts_collection st)
          (main.requests st ++ [Contract.con_id contract]))).
Proof.
  intros outcome. unfold outcome, main.get_historical_market_data.
  destruct (main.hmds_collection st !! main.upper env symbol) as [market_data|] eqn:Hdoc.
  - destruct (bool_decide _) eqn:Hstale; simpl.
    + apply bool_decide_eq_true in Hstale. clear Hdoc Hstale.
      destruct (filter _ _) as [|contract rest] eqn:Hfilter.
      { right; left. exists main.IndexError, st. by repeat split; auto. }
      destruct (main.truth_value env contract); simpl.
      2:{ right; left. exists (main.HTTPException 404), st. by repeat split; auto. }
      pose proof (request_historical_data_store env (Contract.con_id contract) "1y" "1d" st)
        as Hstore.
      destruct (main.request_historical_data _ _ _ _ _) as [[historical_data|e] st1];
        simpl in Hstore; subst st1.
      * right; right. exists contract, historical_data.
        assert (contract ∈ filter (λ c, Contract.symbol c = main.upper env symbol)
                             (main.contracts_collection st)) as Hin
          by (rewrite Hfilter; left).
        apply list_elem_of_filter in Hin as [Hsym Hin]. done.
      * right; left. eexists e, _. split; [done|]. simpl. repeat split. right. by eexists.
    + apply bool_decide_eq_false in Hstale. left. exists market_data.
      split; [done|]. split; [lia|done].
  - destruct (filter _ _) as [|contract rest] eqn:Hfilter.
    { right; left. exists main.IndexError, st. by repeat split; auto. }
    destruct (main.truth_value env contract); simpl.
    2:{ right; left. exists (main.HTTPException 404), st. by repeat split; auto. }
    pose proof (request_historical_data_store env (Contract.con_id contract) "1y" "1d" st)
      as Hstore.
    destruct (main.request_historical_data _ _ _ _ _) as [[historical_data|e] st1];
      simpl in Hstore; subst st1.
    + right; right. exists contract, historical_data.
      assert (contract ∈ filter (λ c, Contract.symbol c = main.upper env symbol)
                           (main.contracts_collection st)) as Hin
        by (rewrite Hfilter; left).
      apply list_elem_of_filter in Hin as [Hsym Hin]. done.
    + right; left. eexists e, _. split; [done|]. simpl. repeat split. right. by eexists.
Qed.

Lemma get_historical_market_data_hit env symbol st market_data :
  main.hmds_collection st !! main.upper env symbol = Some market_data →
  (main.now_at_check env - main.MarketData.last_updated market_data ≤ main.ONE_DAY)%Z →
  main.get_historical_market_data env symbol st = (main.Return market_data, st).
Proof.
  intros Hdoc Hfresh. unfold main.get_historical_market_data. rewrite Hdoc.
  by rewrite bool_decide_eq_false_2 by lia.
Qed.

(** What the endpoint returns, it serves again. After a request for a
    symbol has returned a document, a second request for that symbol made
    no later than one day after the document's time of update returns the
    same document, requests nothing from the brokerage API and writes
    nothing. *)
Theorem second_request_is_served_from_store env env' symbol st market_data st' :
  main.get_historical_market_data env symbol st = (main.Return market_data, st') →
  main.upper env' symbol = main.upper env symbol →
  (main.now_at_check env' - main.MarketData.last_updated market_data ≤ main.ONE_DAY)%Z →
  main.get_historical_market_data env' symbol st' = (main.Return market_data, st').
Proof.
  intros Hfirst Hupper Hfresh. apply get_historical_market_data_hit; [|done].
  rewrite Hupper.
  destruct (get_historical_market_data_cases env symbol st)
    as [(cached & Hdoc & _ & Hout)|[(e & st1 & Hout & _)|(contract & bars & _ & _ & Hout)]];
    rewrite Hout in Hfirst.
  - by injection Hfirst as <- <-.
  - discriminate.
  - injection Hfirst as <- <-. simpl. by rewrite lookup_insert_eq.
Qed.

Lemma second_request_is_served_from_store_witness :
  main.get_historical_market_data (answering [bar_opening (dec 10 1)]) "ABC"
    (main.mkStore {[ "ABC" := main.MarketData.mk "ABC" 0 [] ]}
                  [Contract.mk "ABC" 265598] [265598%Z])
  = (main.Return (main.MarketData.mk "ABC" 0 []),
     main.mkStore {[ "ABC" := main.MarketData.mk "ABC" 0 [] ]}
                  [Contract.mk "ABC" 265598] [265598%Z]).
Proof.
  apply (second_request_is_served_from_store
           (answering [bar_opening (dec 10 1)]) (answering [bar_opening (dec 10 1)])
           "ABC" abc_store).
  - vm_compute. reflexivity.
  - reflexivity.
  - vm_compute. discriminate.
Defined.

(** An unknown symbol. When the store has no fresh document for the symbol
    and the contracts collection has no document with it, the endpoint
    raises IndexError, from taking the first element of an empty query
    answer, and not the HTTP error 404 of the check that follows; nothing
    is requested and nothing is written. *)
Theorem unknown_symbol_raises_index_error env symbol st :
  match main.hmds_collection st !! main.upper env symbol with
  | Some market_data =>
      (main.ONE_DAY < main.now_at_check env - main.MarketData.last_updated market_data)%Z
  | None => True
  end →
  (∀ contract, contract ∈ main.contracts_collection st →
               Contract.symbol contract ≠ main.upper env symbol) →
  main.get_historical_market_data env symbol st = (main.Raises main.IndexError, st).
Proof.
  intros Hstale Hunknown. unfold main.get_historical_market_data.
  rewrite (filter_none _ (main.contracts_collection st)) by done.
  destruct (main.hmds_collection st !! main.upper env symbol) as [market_data|]; [|done].
  by rewrite bool_decide_eq_true_2 by done.
Qed.

Lemma unknown_symbol_raises_index_error_witness :
  main.get_historical_market_data (answering twelve_bars) "XYZ" abc_store
  = (main.Raises main.IndexError, abc_store).
Proof.
  apply (unknown_symbol_raises_index_error (answering twelve_bars) "XYZ" abc_store).
  - exact I.
  - intros contract Hin. apply list_elem_of_singleton in Hin. subst contract. discriminate.
Defined.

(** The endpoint stores only what it returns. Whatever the outcome, the
    contracts collection is unchanged and at most one request is made; when
    the endpoint raises, the store of documents is unchanged; when it
    returns a document, that document is the one the store holds for the
    upper-cased symbol afterwards, and every other document is untouched. *)
Theorem endpoint_stores_only_what_it_returns env symbol st :
  let outcome := main.get_historical_market_data env symbol st in
  main.contracts_collection outcome.2 = main.contracts_collection st ∧
  (main.requests outcome.2 = main.requests st ∨
   ∃ conid, main.requests outcome.2 = main.requests st ++ [conid]) ∧
  match outcome.1 with
  | main.Raises _ => main.hmds_collection outcome.2 = main.hmds_collection st
  | main.Return market_data =>
      main.hmds_collection outcome.2 !! main.upper env symbol = Some market_data ∧
      ∀ other, other ≠ main.upper env symbol →
               main.hmds_collection outcome.2 !! other = main.hmds_collection st !! other
  end.
Proof.
  intros outcome. unfold outcome.
  destruct (get_historical_market_data_cases env symbol st)
    as [(cached & Hdoc & _ & ->)
       |[(e & st1 & -> & Hh & Hc & Hr)|(contract & bars & _ & _ & ->)]]; simpl.
  - split; [done|]. split; [by left|]. done.
  - done.
  - split; [done|]. split; [right; by eexists|].
    split; [by rewrite lookup_insert_eq|]. intros other Hother.
    by rewrite lookup_insert_ne.
Qed.

(** A short history is cached as an empty one. When the store has no fresh
    document for the symbol, none at all or a stale one, and the brokerage
    API answers the refresh with between one and ten bars, the endpoint
    stores and returns a document without any bar, which the store then
    serves for a day. *)
Theorem short_history_is_cached_empty env symbol st contract others response bars :
  match main.hmds_collection st !! main.upper env symbol with
  | Some market_data =>
      (main.ONE_DAY < main.now_at_check env - main.MarketData.last_updated market_data)%Z
  | None => True
  end →
  filter (λ c, Contract.symbol c = main.upper env symbol) (main.contracts_collection st)
    = contract :: others →
  main.truth_value env contract = true →
  main.historical_market_data env (Contract.con_id contract) "1y" "1d"
    = main.Return response →
  response !! "data" = Some bars →
  bars ≠ [] → (length bars ≤ 10)%nat →
  Forall (λ bar : main.Bar, is_Some (bar !! "o")) bars →
  let empty := main.MarketData.mk (main.upper env symbol) (main.now_at_store env) [] in
  (main.get_historical_market_data env symbol st).1 = main.Return empty ∧
  main.hmds_collection (main.get_historical_market_data env symbol st).2
    !! main.upper env symbol = Some empty.
Proof.
  intros Hstale Hcontract Htruth Hresponse Hdata Hne Hshort Hopen empty.
  unfold main.get_historical_market_data, main.request_historical_data.
  assert (match main.hmds_collection st !! main.upper env symbol with
          | Some market_data =>
              if negb (bool_decide
                         (main.ONE_DAY
                          < main.now_at_check env - main.MarketData.last_updated market_data)%Z)
              then Some market_data else None
          | None => None
          end = None) as ->.
  { destruct (main.hmds_collection st !! main.upper env symbol) as [market_data|]; [|done].
    by rewrite bool_decide_eq_true_2 by done. }
  rewrite Hcontract, Htruth, Hresponse, Hdata. simpl.
  rewrite filter_bars_short by done. simpl. split; [done|]. by rewrite lookup_insert_eq.
Qed.

Lemma short_history_is_cached_empty_witness :
  (main.get_historical_market_data (late_answering [bar_opening (dec 10 1)]) "ABC"
     stale_abc_store).1
    = main.Return (main.MarketData.mk "ABC" 90000000000 []) ∧
  main.hmds_collection
    (main.get_historical_market_data (late_answering [bar_opening (dec 10 1)]) "ABC"
       stale_abc_store).2
    !! "ABC"
  = Some (main.MarketData.mk "ABC" 90000000000 []).
Proof.
  apply (short_history_is_cached_empty (late_answering [bar_opening (dec 10 1)]) "ABC"
           stale_abc_store (Contract.mk "ABC" 265598) []
           {[ "data" := [bar_opening (dec 10 1)] ]} [bar_opening (dec 10 1)]).
  - vm_compute. reflexivity.
  - reflexivity.
  - reflexivity.
  - reflexivity.
  - reflexivity.
  - discriminate.
  - simpl. lia.
  - apply (bool_decide_unpack _). vm_compute. exact I.
Defined.

(** ** The brokerage session of [app/utils.py] *)

Lemma seconds_slept_app events later :
  seconds_slept (events ++ later) = (seconds_slept events + seconds_slept later)%Z.
Proof. induction events as [|[] events IH]; simpl; lia. Qed.

Lemma occurrences_app event events later :
  occurrences event (events ++ later)
  = (occurrences event events + occurrences event later)%nat.
Proof. unfold occurrences. by rewrite list.filter_app, length_app. Qed.

Lemma sleep_accepted (attempt_count : nat) :
  (attempt_count ≤ 33)%nat → (2 ^ Z.of_nat attempt_count ≤ utils.MAX_SLEEP)%Z.
Proof.
  intros Hn. trans (2 ^ 33)%Z; [apply Z.pow_le_mono_r; lia|]. by vm_compute.
Qed.

Lemma sleep_refused (attempt_count : nat) :
  (34 ≤ attempt_count)%nat → ¬ (2 ^ Z.of_nat attempt_count ≤ utils.MAX_SLEEP)%Z.
Proof.
  intros Hn Hle. assert (2 ^ 34 ≤ 2 ^ Z.of_nat attempt_count)%Z as Hpow
    by (apply Z.pow_le_mono_r; lia).
  assert (utils.MAX_SLEEP < 2 ^ 34)%Z by (by vm_compute). lia.
Qed.

(** The attempts up to the first that is not refused, as long as every
    sleep is accepted. *)
Lemma init_api_session_refused k last rest attempt_count :
  last ≠ utils.Refused →
  (attempt_count + k ≤ 34)%nat →
  ∃ events,
    utils.init_api_session (replicate k utils.Refused ++ last :: rest) attempt_count
    = ((utils.init_api_session [last] (attempt_count + k)).1, events) ∧
    seconds_slept events
      = (2 ^ Z.of_nat (attempt_count + k) - 2 ^ Z.of_nat attempt_count)%Z ∧
    occurrences utils.error_initialising events = k.
Proof.
  intros Hlast. revert attempt_count.
  induction k as [|k IH]; intros attempt_count Hbound.
  - rewrite Nat.add_0_r. destruct last; [|done|]; simpl; eexists;
      (split; [reflexivity|]); split; simpl; try lia; done.
  - destruct (IH (S attempt_count)) as (events & Hrun & Hslept & Herrors); [lia|].
    cbn [replicate app utils.init_api_session].
    rewrite decide_True by (apply sleep_accepted; lia). rewrite Hrun.
    replace (S attempt_count + k)%nat with (attempt_count + S k)%nat in * by lia.
    eexists. split; [reflexivity|]. split.
    + cbn [app seconds_slept]. rewrite Hslept.
      rewrite (Nat2Z.inj_succ attempt_count), Z.pow_succ_r by lia. lia.
    + unfold occurrences in *. cbn [app].
      rewrite filter_cons_False, filter_cons_True, !filter_cons_False by done.
      simpl. by rewrite Herrors.
Qed.

(** Refusals in a row up to attempt 34, whose sleep is refused. *)
Lemma init_api_session_overflow k rest attempt_count :
  (attempt_count + k = 34)%nat →
  ∃ events,
    utils.init_api_session (replicate (S k) utils.Refused ++ rest) attempt_count
    = (utils.SleepOverflow, events) ∧
    seconds_slept events = (2 ^ 34 - 2 ^ Z.of_nat attempt_count)%Z ∧
    occurrences utils.error_initialising events = S k.
Proof.
  revert attempt_count. induction k as [|k IH]; intros attempt_count Hbound.
  - cbn [replicate app utils.init_api_session].
    rewrite decide_False by (apply sleep_refused; lia).
    eexists. split; [reflexivity|]. split; [|done].
    replace attempt_count with 34%nat by lia. done.
  - destruct (IH (S attempt_count)) as (events & Hrun & Hslept & Herrors); [lia|].
    cbn [replicate app utils.init_api_session] in *.
    rewrite decide_True by (apply sleep_accepted; lia). rewrite Hrun.
    eexists. split; [reflexivity|]. split.
    + cbn [app seconds_slept]. rewrite Hslept.
      rewrite (Nat2Z.inj_succ attempt_count), Z.pow_succ_r by lia. lia.
    + unfold occurrences in *. cbn [app].
      rewrite filter_cons_False, filter_cons_True, !filter_cons_False by done.
      simpl. by rewrite Herrors.
Qed.

(** Exponential back-off, and its end. When the first k attempts to open
    the session are refused, k being 33 at most, and the next one succeeds,
    [init_api_session] returns the session of attempt k+1, having logged k
    errors and slept 2 + 4 + ... + 2^k = 2^(k+1) - 2 seconds in all; when
    instead the configuration cannot be read at that attempt, the exception
    is not retried. A 34th refusal in a row ends the function with the
    OverflowError of [time.sleep], after 2^34 - 2 seconds of sleep. *)
Theorem init_api_session_backs_off k rest :
  (k ≤ 33)%nat →
  (∃ events,
     utils.init_api_session (replicate k utils.Refused ++ utils.Connected :: rest) 1
     = (utils.Session (S k), events) ∧
     seconds_slept events = (2 ^ Z.of_nat (S k) - 2)%Z ∧
     occurrences utils.error_initialising events = k) ∧
  (utils.init_api_session (replicate k utils.Refused ++ utils.ConfigUnreadable :: rest) 1).1
  = utils.ConfigError ∧
  (∃ events,
     utils.init_api_session (replicate 34 utils.Refused ++ rest) 1
     = (utils.SleepOverflow, events) ∧
     seconds_slept events = (2 ^ 34 - 2)%Z ∧
     occurrences utils.error_initialising events = 34%nat).
Proof.
  intros Hk. split; [|split].
  - destruct (init_api_session_refused k utils.Connected rest 1) as (events & -> & Hs & He);
      [done|lia|].
    exists events. split; [done|]. split; [|done]. rewrite Hs. simpl. lia.
  - by destruct (init_api_session_refused k utils.ConfigUnreadable rest 1)
      as (events & -> & _); [done|lia|].
  - destruct (init_api_session_overflow 33 rest 1) as (events & Hrun & Hs & He); [lia|].
    exists events. split; [done|]. split; [|done]. rewrite Hs. simpl. lia.
Qed.

Lemma init_api_session_backs_off_witness :
  (∃ events,
     utils.init_api_session (replicate 3 utils.Refused ++ utils.Connected :: []) 1
     = (utils.Session 4, events) ∧
     seconds_slept events = (2 ^ Z.of_nat 4 - 2)%Z ∧
     occurrences utils.error_initialising events = 3%nat) ∧
  (utils.init_api_session (replicate 3 utils.Refused ++ utils.ConfigUnreadable :: []) 1).1
  = utils.ConfigError ∧
  (∃ events,
     utils.init_api_session (replicate 34 utils.Refused ++ []) 1
     = (utils.SleepOverflow, events) ∧
     seconds_slept events = (2 ^ 34 - 2)%Z ∧
     occurrences utils.error_initialising events = 34%nat).
Proof. apply (init_api_session_backs_off 3 []). lia. Defined.

Lemma try_block_uninterrupted pass :
  uninterrupted pass →
  (utils.try_block pass).1 ≠ utils.KeyboardInterrupt ∧
  seconds_slept (utils.try_block pass).2 = 0%Z ∧
  occurrences utils.logout (utils.try_block pass).2 = 0%nat ∧
  occurrences utils.reauthenticate (utils.try_block pass).2
  = (if decide (found_unauthenticated pass) then 1 else 0)%nat.
Proof.
  intros (Ht & Ha & Hr & Hs). unfold utils.try_block.
  destruct pass as [t a r l sl]. simpl in *.
  destruct t as [[]| |]; destruct a as [[[|]|]| |]; destruct r as [[]| |]; try done;
    (split; [done|]); (split; [done|]); (split; [done|]);
    case_decide as Hf; try done; unfold found_unauthenticated in Hf; simpl in Hf;
    try (by destruct Hf); exfalso; by apply Hf.
Qed.

(** While no interrupt arrives the loop keeps running, whatever fails. *)
Lemma keep_api_session_alive_uninterrupted world :
  Forall uninterrupted world →
  ∃ events,
    utils.keep_api_session_alive world = (utils.Running, events) ∧
    seconds_slept events = (utils.AUTH_TIMEOUT * Z.of_nat (length world))%Z ∧
    occurrences utils.logout events = 0%nat ∧
    occurrences utils.reauthenticate events = length (filter found_unauthenticated world).
Proof.
  induction 1 as [|pass world Hpass _ (later & Hrun & Hslept & Hlogout & Hreauth)].
  - by exists [].
  - destruct (try_block_uninterrupted pass Hpass) as (Htried & Hs & Hl & Hr).
    destruct Hpass as (_ & _ & _ & Hsleep).
    cbn [utils.keep_api_session_alive].
    destruct (utils.try_block pass) as [tried events]. simpl in *.
    rewrite Hsleep, Hrun.
    assert (occurrences utils.reauthenticate
              ((events ++ (if tried is utils.Excepted then [utils.error_managing] else [])
                       ++ [utils.sleep utils.AUTH_TIMEOUT]) ++ later)
            = length (filter found_unauthenticated (pass :: world))) as Hcount.
    { rewrite !occurrences_app, Hr, Hreauth.
      destruct (decide (found_unauthenticated pass));
        [rewrite filter_cons_True by done|rewrite filter_cons_False by done];
        by destruct tried. }
    assert (seconds_slept
              ((events ++ (if tried is utils.Excepted then [utils.error_managing] else [])
                       ++ [utils.sleep utils.AUTH_TIMEOUT]) ++ later)
            = (utils.AUTH_TIMEOUT * Z.of_nat (S (length world)))%Z) as Htime.
    { rewrite !seconds_slept_app, Hs, Hslept. destruct tried; simpl; lia. }
    assert (occurrences utils.logout
              ((events ++ (if tried is utils.Excepted then [utils.error_managing] else [])
                       ++ [utils.sleep utils.AUTH_TIMEOUT]) ++ later) = 0%nat) as Hout.
    { rewrite !occurrences_app, Hl, Hlogout. by destruct tried. }
    destruct tried; [| |done]; eexists; (split; [reflexivity|]); done.
Qed.

Lemma keep_api_session_alive_app world rest :
  Forall uninterrupted world →
  utils.keep_api_session_alive (world ++ rest)
  = ((utils.keep_api_session_alive rest).1,
     (utils.keep_api_session_alive world).2 ++ (utils.keep_api_session_alive rest).2).
Proof.
  induction 1 as [|pass world Hpass _ IH].
  - simpl. by destruct (utils.keep_api_session_alive rest).
  - destruct (try_block_uninterrupted pass Hpass) as (Htried & _).
    destruct Hpass as (_ & _ & _ & Hsleep).
    cbn [app utils.keep_api_session_alive].
    destruct (utils.try_block pass) as [tried events]. simpl in Htried.
    rewrite Hsleep, IH.
    destruct (utils.keep_api_session_alive world) as [outcome later].
    destruct (utils.keep_api_session_alive rest) as [outcome' later'].
    destruct tried; [| |done]; simpl; by rewrite <- !app_assoc.
Qed.

Lemma try_block_no_logout pass : occurrences utils.logout (utils.try_block pass).2 = 0%nat.
Proof.
  unfold utils.try_block.
  destruct (utils.tickle_call pass) as [[]| |];
    destruct (utils.auth_status_call pass) as [[[|]|]| |];
    destruct (utils.reauthenticate_call pass) as [[]| |]; done.
Qed.

(** Exceptions never end the session keeper. As long as no interrupt
    arrives, [keep_api_session_alive] is still running after any number of
    passes, whichever calls raised an exception; it has slept 60 seconds in
    every pass and has never logged out. *)
Theorem session_keeper_survives_exceptions world :
  Forall uninterrupted world →
  (utils.keep_api_session_alive world).1 = utils.Running ∧
  seconds_slept (utils.keep_api_session_alive world).2 = (60 * Z.of_nat (length world))%Z ∧
  occurrences utils.logout (utils.keep_api_session_alive world).2 = 0%nat.
Proof.
  intros Hworld.
  by destruct (keep_api_session_alive_uninterrupted world Hworld)
    as (events & -> & Hslept & Hlogout & _).
Qed.

Lemma session_keeper_survives_exceptions_witness :
  (utils.keep_api_session_alive [failing_pass; quiet_pass false; failing_pass]).1
    = utils.Running ∧
  seconds_slept
    (utils.keep_api_session_alive [failing_pass; quiet_pass false; failing_pass]).2
    = (60 * Z.of_nat 3)%Z ∧
  occurrences utils.logout
    (utils.keep_api_session_alive [failing_pass; quiet_pass false; failing_pass]).2
    = 0%nat.
Proof.
  apply (session_keeper_survives_exceptions [failing_pass; quiet_pass false; failing_pass]).
  repeat first [apply Forall_nil_2 | apply Forall_cons_2; [by repeat split|]].
Defined.

(** The session keeper reauthenticates exactly when it finds the session
    unauthenticated: as long as no interrupt arrives, the number of calls of
    [reauthenticate] is the number of passes in which [tickle] returned and
    the status read "authenticated: false". *)
Theorem session_keeper_reauthenticates_when_unauthenticated world :
  Forall uninterrupted world →
  occurrences utils.reauthenticate (utils.keep_api_session_alive world).2
  = length (filter found_unauthenticated world).
Proof.
  intros Hworld.
  by destruct (keep_api_session_alive_uninterrupted world Hworld)
    as (events & -> & _ & _ & Hreauth).
Qed.

Lemma session_keeper_reauthenticates_when_unauthenticated_witness :
  occurrences utils.reauthenticate
    (utils.keep_api_session_alive
       [quiet_pass true; quiet_pass false; failing_pass; quiet_pass false]).2
  = length (filter found_unauthenticated
                   [quiet_pass true; quiet_pass false; failing_pass; quiet_pass false]).
Proof.
  apply (session_keeper_reauthenticates_when_unauthenticated
           [quiet_pass true; quiet_pass false; failing_pass; quiet_pass false]).
  repeat first [apply Forall_nil_2 | apply Forall_cons_2; [by repeat split|]].
Defined.

(** An interrupt inside the [try] block. The handler logs the exit and logs
    out, and the [finally] clause still sleeps 60 seconds before the loop
    is left; the passes that follow do not take place. *)
Theorem interrupt_in_try_logs_out_then_sleeps world pass rest :
  Forall uninterrupted world →
  (utils.try_block pass).1 = utils.KeyboardInterrupt →
  utils.logout_call pass = utils.Returns tt →
  utils.sleep_call pass = utils.Returns tt →
  utils.keep_api_session_alive (world ++ pass :: rest)
  = (utils.Left,
     (utils.keep_api_session_alive world).2 ++ (utils.try_block pass).2
       ++ [utils.info_exiting_thread; utils.logout; utils.sleep 60]).
Proof.
  intros Hworld Htried Hlogout Hsleep.
  rewrite keep_api_session_alive_app by done.
  cbn [utils.keep_api_session_alive].
  destruct (utils.try_block pass) as [tried events]. simpl in Htried. subst tried.
  by rewrite Hlogout, Hsleep.
Qed.

Lemma interrupt_in_try_logs_out_then_sleeps_witness :
  utils.keep_api_session_alive ([failing_pass] ++ interrupted_pass :: [quiet_pass true])
  = (utils.Left,
     (utils.keep_api_session_alive [failing_pass]).2 ++ (utils.try_block interrupted_pass).2
       ++ [utils.info_exiting_thread; utils.logout; utils.sleep 60]).
Proof.
  apply (interrupt_in_try_logs_out_then_sleeps [failing_pass] interrupted_pass
           [quiet_pass true]); try reflexivity.
  repeat first [apply Forall_nil_2 | apply Forall_cons_2; [by repeat split|]].
Defined.

(** An interrupt during the sleep. The sleep is in the [finally] clause,
    outside the [try] block: an interrupt that arrives there, after a block
    that was not interrupted, ends the function with the exception, without
    the exit record and without logging out. *)
Theorem interrupt_in_sleep_skips_logout world pass rest :
  Forall uninterrupted world →
  (utils.try_block pass).1 ≠ utils.KeyboardInterrupt →
  utils.sleep_call pass = utils.Interrupted →
  (utils.keep_api_session_alive (world ++ pass :: rest)).1 = utils.Uncaught ∧
  occurrences utils.logout (utils.keep_api_session_alive (world ++ pass :: rest)).2
    = 0%nat.
Proof.
  intros Hworld Htried Hsleep.
  rewrite keep_api_session_alive_app by done.
  destruct (keep_api_session_alive_uninterrupted world Hworld)
    as (before & -> & _ & Hbefore & _).
  pose proof (try_block_no_logout pass) as Hblock.
  cbn [utils.keep_api_session_alive].
  destruct (utils.try_block pass) as [tried events]. simpl in *.
  rewrite Hsleep.
  destruct tried; [| |done]; simpl; (split; [done|]);
    by rewrite !occurrences_app, Hbefore, Hblock.
Qed.

Lemma interrupt_in_sleep_skips_logout_witness :
  (utils.keep_api_session_alive ([quiet_pass true] ++ interrupted_sleep :: [])).1
    = utils.Uncaught ∧
  occurrences utils.logout
    (utils.keep_api_session_alive ([quiet_pass true] ++ interrupted_sleep :: [])).2
    = 0%nat.
Proof.
  apply (interrupt_in_sleep_skips_logout [quiet_pass true] interrupted_sleep []).
  - repeat first [apply Forall_nil_2 | apply Forall_cons_2; [by repeat split|]].
  - discriminate.
  - reflexivity.
Defined.
